(** * calibre: HTML to PDF conversion (src/calibre/ebooks/pdf/html_writer.py)

    A shallow embedding of the conversion pipeline: the anchor uniquifier
    ([make_anchors_unique]), the margin grouper ([create_margin_groups]),
    the marker injector ([add_toc_links]), the render driver
    ([Renderer.convert_html_file], [render_name]), the page reconciler
    ([get_anchor_locations]) and the driver [convert].

    Python dictionaries are [gmap]s, sets are [gset]s, lxml trees are an
    inductive type of elements addressed by paths, mutable Qt objects live
    in an explicit heap, and exceptions are values of [result].  Lengths
    (Python floats, Qt's [qreal]) are exact rationals: the rounding error of
    floating-point arithmetic is left out. *)

From Stdlib Require Import Ascii String QArith Qcanon Qround Lqa.
From stdpp Require Import gmap strings list fin_maps pretty functions numbers.

Close Scope Qc_scope.
Close Scope Q_scope.

Set Default Proof Using "Type".

(** ** Exceptions *)

Inductive exn :=
  | SystemExit (msg : string)
  | KeyError (key : string)
  | IndexError (msg : string)
  | AttributeError (msg : string)
  | TypeError (msg : string)
  | ValueError (msg : string).

(** The outcome of a call: a value, an exception, or no return at all (the
    Qt event loop never exits). *)
Inductive result (A : Type) :=
  | Ok (a : A)
  | Raise (e : exn)
  | Hang.
Arguments Ok {A} a.
Arguments Raise {A} e.
Arguments Hang {A}.

Definition result_bind {A B} (m : result A) (k : A → result B) : result B :=
  match m with
  | Ok a => k a
  | Raise e => Raise e
  | Hang => Hang
  end.

Notation "'do' x <- m ; k" := (result_bind m (fun x => k))
  (at level 10, x pattern, m at level 100, k at level 200).

Definition is_SystemExit (e : exn) : bool :=
  match e with SystemExit _ => true | _ => false end.

(** ** lxml element trees *)

Unset Elimination Schemes.
Inductive Elem := mkElem {
  tag : string;
  attrib : gmap string string;
  text : string;
  tail : string;
  children : list Elem
}.
Set Elimination Schemes.

(** Induction on a tree, with the hypothesis for every child. *)
Fixpoint Elem_ind' (P : Elem → Prop)
    (step : ∀ tag attrib text tail children,
        Forall P children → P (mkElem tag attrib text tail children))
    (e : Elem) : P e :=
  match e with
  | mkElem tag attrib text tail children =>
      step tag attrib text tail children
        ((fix go (cs : list Elem) : Forall P cs :=
            match cs with
            | [] => Forall_nil_2 P
            | c :: cs' => Forall_cons_2 P c cs' (Elem_ind' P step c) (go cs')
            end) children)
  end.

(** An element of a tree is referred to by the child indices leading to it. *)
Definition path := list nat.

Fixpoint get_elem (p : path) (e : Elem) : option Elem :=
  match p with
  | [] => Some e
  | i :: p' => children e !! i ≫= get_elem p'
  end.

Definition with_children (e : Elem) (cs : list Elem) : Elem :=
  mkElem (tag e) (attrib e) (text e) (tail e) cs.

Fixpoint update_elem (p : path) (f : Elem → Elem) (e : Elem) : Elem :=
  match p with
  | [] => f e
  | i :: p' => with_children e (alter (update_elem p' f) i (children e))
  end.

(** [elem.get(k)] and [elem.set(k, v)] *)
Definition elem_get (k : string) (e : Elem) : option string := attrib e !! k.

Definition elem_set (k v : string) (e : Elem) : Elem :=
  mkElem (tag e) (<[k := v]> (attrib e)) (text e) (tail e) (children e).

(** [root.xpath('//*[@id]')]: the elements carrying an [id] attribute, in
    document order. *)
Fixpoint xpath_id (e : Elem) : list path :=
  (if elem_get "id" e is Some _ then [[]] else []) ++
  (fix go (i : nat) (cs : list Elem) : list path :=
     match cs with
     | [] => []
     | c :: cs' => (cons i <$> xpath_id c) ++ go (S i) cs'
     end) 0 (children e).

Definition xpath_id_children : nat → list Elem → list path :=
  fix go (i : nat) (cs : list Elem) : list path :=
    match cs with
    | [] => []
    | c :: cs' => (cons i <$> xpath_id c) ++ go (S i) cs'
    end.

(** ** The container *)

(** Modelled from the spec: the table of contents is a tree of entries, each
    naming a destination section and, optionally, a fragment. *)
Unset Elimination Schemes.
Inductive TOC := mkTOC {
  dest : option string;
  frag : option string;
  toc_children : list TOC
}.
Set Elimination Schemes.

Record Container := mkContainer {
  spine_names : list (string * bool);
  mime_map : list string;
  parsed : string → Elem;
  dirtied : gset string;
  committed : bool
}.

Definition set_parsed (c : Container) (name : string) (root : Elem) : Container :=
  mkContainer (spine_names c) (mime_map c) (<[name := root]> (parsed c))
    (dirtied c) (committed c).

Definition dirty (c : Container) (name : string) : Container :=
  mkContainer (spine_names c) (mime_map c) (parsed c)
    ({[name]} ∪ dirtied c) (committed c).

Definition commit (c : Container) : Container :=
  mkContainer (spine_names c) (mime_map c) (parsed c) ∅ true.

(** The collaborators of the module that live outside it: the rest of the
    container class ([href_to_name], [name_to_abspath], [replace_links], the
    last one seen as a function on the tree of the file), the HTML merger,
    the JSON decoder, the ToC reader and the identifier generator.  The
    margins attribute is written as a JSON object of numbers, and
    [json_loads] decodes it to that object. *)
Record Collaborators := mkCollaborators {
  href_to_name : string → string → option string;
  name_to_abspath : string → string;
  replace_links : string → (string → string) → Elem → Elem;
  merge_html : Container → list string → string → Container;
  json_loads : string → gmap string Qc;
  get_toc : Container → TOC;
  uuid4 : string
}.

(** ** Anchor uniquifier *)

Module Uniquifier.

Abbreviation anchor_map := (gmap (string * option string) string).

(** ['a{}'.format(count)] *)
Definition new_id (count : nat) : string := "a" +:+ pretty count.

(** [url.partition('#')[::2]] *)
Fixpoint partition_hash (url : string) : string * string :=
  match url with
  | EmptyString => (EmptyString, EmptyString)
  | String c rest =>
      if Ascii.eqb c "#"%char then (EmptyString, rest)
      else let '(h, f) := partition_hash rest in (String c h, f)
  end.

(** ['#' in url] *)
Fixpoint has_hash (url : string) : bool :=
  match url with
  | EmptyString => false
  | String c rest => Ascii.eqb c "#"%char || has_hash rest
  end.

(** [url.startswith('#')] *)
Definition startswith_hash (url : string) : bool :=
  match url with
  | String c _ => Ascii.eqb c "#"%char
  | EmptyString => false
  end.

(** [url[1:]] *)
Definition drop_first (url : string) : string :=
  match url with
  | String _ rest => rest
  | EmptyString => EmptyString
  end.

(** The closure [replacer]; [mapping] and [base] are its free variables.
    The second component is the flag [replacer.replaced] when it is set. *)
Definition replacer (env : Collaborators) (mapping : anchor_map)
    (base : string) (url : string) : string * bool :=
  if bool_decide (url = "") then (url, false)
  else if negb (has_hash url) then (url, false)
  else
    let '(href, frag) :=
      if startswith_hash url then (base, drop_first url)
      else partition_hash url in
    match href_to_name env href base with
    | None => (url, false)
    | Some name =>
        if bool_decide (name = "") then (url, false)
        else
          match mapping !! (name, Some frag) with
          | None => (url, false)
          | Some new_frag =>
              if startswith_hash url then ("#" +:+ new_frag, true)
              else (href +:+ "#" +:+ new_frag, true)
          end
    end.

Record state := mkState {
  mapping : anchor_map;
  count : nat
}.

(** The body of the inner loop, for the element at path [p] of [root]. *)
Definition visit_elem (spine_name : string) (p : path)
    (acc : state * Elem) : state * Elem :=
  let '(st, root) := acc in
  let count := S (count st) in
  let key := (spine_name, get_elem p root ≫= elem_get "id") in
  match mapping st !! key with
  | Some _ => (mkState (mapping st) count, root)
  | None =>
      let new := new_id count in
      (mkState (<[key := new]> (mapping st)) count,
       update_elem p (elem_set "id" new) root)
  end.

(** The outer loop body: one spine section. *)
Definition visit_section (acc : state * Container) (item : string * bool)
    : state * Container :=
  let '(st, c) := acc in
  let spine_name := item.1 in
  let root := parsed c spine_name in
  let '(st', root') :=
    foldl (λ a p, visit_elem spine_name p a) (st, root) (xpath_id root) in
  (st', set_parsed c spine_name root').

(** Lines 251-258: assignment of the new identifiers. *)
Definition assign_ids (c : Container) : state * Container :=
  foldl visit_section (mkState ∅ 0, c) (spine_names c).

(** Lines 260-263: every file of the container has its links rewritten. *)
Definition rewrite_links (env : Collaborators) (mapping : anchor_map)
    (c : Container) : Container :=
  foldl (λ c name,
           set_parsed c name
             (replace_links env name (λ url, (replacer env mapping name url).1)
                (parsed c name)))
    c (mime_map c).

Definition make_anchors_unique (env : Collaborators) (c : Container) : Container :=
  let '(st, c1) := assign_ids c in
  rewrite_links env (mapping st) c1.

End Uniquifier.

(** ** Margin grouper *)

(** The Python values the variable [margins] can hold: [None] when the
    attribute is missing, the attribute text itself when it is empty, and
    the decoded JSON object otherwise. *)
Inductive pyval :=
  | PyNone
  | PyStr (s : string)
  | PyDict (d : gmap string Qc).

Global Instance pyval_eq_dec : EqDecision pyval.
Proof. solve_decision. Defined.

(** Truth value of a Python object, as tested by [if margins:]. *)
Definition truthy (v : pyval) : bool :=
  match v with
  | PyNone => false
  | PyStr s => negb (bool_decide (s = ""))
  | PyDict d => negb (bool_decide (d = ∅))
  end.

Module Grouper.

Definition margins_attr : string := "data-calibre-pdf-output-page-margins".

Abbreviation member := (string * pyval)%type.

(** Lines 161-164. *)
Definition read_margins (env : Collaborators) (root : Elem) : pyval :=
  match elem_get margins_attr root with
  | None => PyNone
  | Some s => if truthy (PyStr s) then PyDict (json_loads env s) else PyStr s
  end.

(** The variables of the loop.  [merges] lists the calls
    [merge_html(container, names, names[0], insert_page_breaks=True)] made so
    far, each by its [names] and [names[0]]. *)
Record state := mkState {
  container : Container;
  merges : list (list string * string);
  groups : list (list member);
  current_group : list member
}.

Definition merge_group (env : Collaborators) (c : Container)
    (log : list (list string * string)) (group : list member)
    : Container * list (list string * string) * list member :=
  if bool_decide (1 < length group) then
    match group with
    | (name0, group_margins) :: _ =>
        let names := group.*1 in
        (merge_html env c names name0, log ++ [(names, name0)],
         [(name0, group_margins)])
    | [] => (c, log, group)
    end
  else (c, log, group).

Definition visit_section (env : Collaborators) (st : state)
    (item : string * bool) : state :=
  let name := item.1 in
  let root := parsed (container st) name in
  let margins := read_margins env root in
  let st1 :=
    match list.last (current_group st) with
    | Some (_, prev_margins) =>
        if bool_decide (prev_margins ≠ margins) then
          let '(c, log, g) :=
            merge_group env (container st) (merges st) (current_group st) in
          mkState c log (groups st ++ [g]) []
        else st
    | None => st
    end in
  mkState (container st1) (merges st1) (groups st1)
    (current_group st1 ++ [(name, margins)]).

Definition create_margin_groups_state (env : Collaborators) (c : Container)
    : state :=
  let st := foldl (visit_section env) (mkState c [] [] []) (spine_names c) in
  match current_group st with
  | [] => st
  | _ :: _ =>
      let '(c', log, g) :=
        merge_group env (container st) (merges st) (current_group st) in
      mkState c' log (groups st ++ [g]) (current_group st)
  end.

Definition create_margin_groups (env : Collaborators) (c : Container)
    : list (list member) * Container :=
  let st := create_margin_groups_state env c in
  (groups st, container st).

End Grouper.

(** ** ToC marker injector *)

Module TocMarker.

(** [XHTML(name)] of calibre.ebooks.oeb.base: the tag in Clark notation. *)
Definition XHTML (name : string) : string :=
  "{http://www.w3.org/1999/xhtml}" +:+ name.

(** [toc.iterdescendants()]: every entry below the root, parents first. *)
Fixpoint iterdescendants (t : TOC) : list TOC :=
  (fix go (cs : list TOC) : list TOC :=
     match cs with
     | [] => []
     | c :: cs' => c :: iterdescendants c ++ go cs'
     end) (toc_children t).

(** Truth value of an optional string ([None] and [''] are false). *)
Definition nonempty (o : option string) : option string :=
  match o with
  | Some s => if bool_decide (s = "") then None else Some s
  | None => None
  end.

(** [body.makeelement(tag, **attrib)] *)
Definition makeelement (tag : string) (attrib : gmap string string) : Elem :=
  mkElem tag attrib "" "" [].

Definition set_text_tail (text tail : string) (e : Elem) : Elem :=
  mkElem (tag e) (attrib e) text tail (children e).

Definition link (href text : string) : Elem :=
  set_text_tail text " " (makeelement (XHTML "a") {[ "href" := href ]}).

(** The element appended to the body by [add_anchors_markup], once all its
    links are in place. *)
Definition marker_div (uuid : string) (anchors : list string) : Elem :=
  with_children
    (makeelement (XHTML "div")
       (<["id" := uuid]> {[ "style" := "page-break-before: always" ]}))
    (imap (λ i anchor, link ("#" +:+ anchor) (pretty i)) anchors
     ++ [link ("#" +:+ uuid) "top"]).

Definition add_anchors_markup (root : Elem) (uuid : string)
    (anchors : list string) : result Elem :=
  match list.last (children root) with
  | None => Raise (IndexError "list index out of range")
  | Some body =>
      let body' := with_children body (children body ++ [marker_div uuid anchors]) in
      Ok (with_children root
            (<[pred (length (children root)) := body']> (children root)))
  end.

Abbreviation name_anchor_map := (gmap string (gset string)).

(** Lines 213-216. *)
Definition collect (m : name_anchor_map) (item : TOC) : name_anchor_map :=
  match nonempty (dest item), nonempty (frag item) with
  | Some d, Some f => <[d := {[f]} ∪ default ∅ (m !! d)]> m
  | _, _ => m
  end.

Definition build_name_anchor_map (toc : TOC) : name_anchor_map :=
  foldl collect ∅ (iterdescendants toc).

(** Lines 217-221, for one group. *)
Definition mark_group (uuid : string) (m : name_anchor_map)
    (c : Container) (group : list Grouper.member) : result Container :=
  match group with
  | [] => Raise (IndexError "list index out of range")
  | (name, _) :: _ =>
      let anchors := default ∅ (m !! name) in
      do root <- add_anchors_markup (parsed c name) uuid (elements anchors);
      Ok (dirty (set_parsed c name root) name)
  end.

Fixpoint mark_groups (uuid : string) (m : name_anchor_map)
    (c : Container) (margin_groups : list (list Grouper.member))
    : result Container :=
  match margin_groups with
  | [] => Ok c
  | group :: rest =>
      do c' <- mark_group uuid m c group;
      mark_groups uuid m c' rest
  end.

Definition add_toc_links (env : Collaborators) (c : Container) (toc : TOC)
    (margin_groups : list (list Grouper.member)) : result (string * Container) :=
  let uuid := uuid4 env in
  let m := build_name_anchor_map toc in
  do c' <- mark_groups uuid m c margin_groups;
  Ok (uuid, c').

End TocMarker.

(** ** Paginated documents (podofo) *)

Module AnchorLocation.
(** [namedtuple('AnchorLocation', 'pagenum left top zoom')] *)
Record t := mk { pagenum : Z; left : Z; top : Z; zoom : Z }.

Global Instance eq_dec : EqDecision t.
Proof. solve_decision. Defined.
End AnchorLocation.

(** Title, authors, producer and tags of the book. *)
Record Metadata := mkMetadata {
  title : string;
  authors : list string;
  book_producer : string;
  tags : list string
}.

Module PDFDoc.

(** Modelled from the spec: the paginated-document library is an opaque
    type that reports its page count, deletes a page by zero-based index,
    extracts the anchor map, and appends or inserts the pages of another
    document, and embeds metadata.  A document is its list of pages, the
    destinations of its named anchors and the metadata written into it. *)
Record t := mk {
  pages : list string;
  anchors : gmap string AnchorLocation.t;
  info : option Metadata
}.

Definition page_count (d : t) : Z := Z.of_nat (length (pages d)).

Definition extract_anchors (d : t) : gmap string AnchorLocation.t := anchors d.

Definition delete_page (d : t) (i : Z) : result t :=
  if bool_decide (0 ≤ i < page_count d)%Z
  then Ok (mk (delete (Z.to_nat i) (pages d)) (anchors d) (info d))
  else Raise (ValueError "page index out of range").

Definition append (d other : t) : t :=
  mk (pages d ++ pages other) (anchors other ∪ anchors d) (info d).

(** [insert_existing_page(src)] with its default arguments: the first page
    of [src] becomes the first page of the document. *)
Definition insert_existing_page (d src : t) : result t :=
  match pages src with
  | [] => Raise (ValueError "page index out of range")
  | pg :: _ => Ok (mk (pg :: pages d) (anchors d) (info d))
  end.

Definition set_metadata (d : t) (mi : Metadata) : t :=
  mk (pages d) (anchors d) (Some mi).

End PDFDoc.

(** ** Page layouts (Qt) *)

(** Conversion of a [double] to [int]: the fraction is dropped. *)
Definition to_int (x : Qc) : Z :=
  if bool_decide (0 ≤ x)%Qc then Qfloor x else Qceiling x.

Definition half : Qc := Q2Qc 0.5.

(** [qRound(double d)] of Qt 5:
    [d >= 0.0 ? int(d + 0.5) : int(d - double(int(d-1)) + 0.5) + int(d-1)].
    The range of [int] is left out. *)
Definition qRound (d : Qc) : Z :=
  if bool_decide (0 ≤ d)%Qc then to_int (d + half)
  else (to_int (d - Qc_of_Z (to_int (d - 1)) + half) + to_int (d - 1))%Z.

(** [qAbs(t)]: [t >= 0 ? t : -t]. *)
Definition qAbs (t : Qc) : Qc := if bool_decide (0 ≤ t)%Qc then t else (- t)%Qc.

(** [qFuzzyIsNull(double d)]: [qAbs(d) <= 0.000000000001]. *)
Definition qFuzzyIsNull (d : Qc) : bool :=
  bool_decide (qAbs d ≤ Q2Qc 0.000000000001)%Qc.

(** Margins in whole numbers, as [marginsPoints] returns them. *)
Module QMargins.
Record t := mk { left : Z; top : Z; right : Z; bottom : Z }.

Global Instance eq_dec : EqDecision t.
Proof. solve_decision. Defined.
End QMargins.

Module QMarginsF.
Record t := mk { left : Qc; top : Qc; right : Qc; bottom : Qc }.

Global Instance eq_dec : EqDecision t.
Proof. solve_decision. Defined.

Definition isNull (m : t) : bool :=
  qFuzzyIsNull (left m) && qFuzzyIsNull (top m)
  && qFuzzyIsNull (right m) && qFuzzyIsNull (bottom m).

Definition toMargins (m : t) : QMargins.t :=
  QMargins.mk (qRound (left m)) (qRound (top m))
    (qRound (right m)) (qRound (bottom m)).

(** [margins * factor] *)
Definition times (m : t) (factor : Qc) : t :=
  mk (left m * factor) (top m * factor) (right m * factor) (bottom m * factor).
End QMarginsF.

Module QPageLayout.

Inductive Unit := Millimeter | Point | Inch | Pica | Didot | Cicero.

Global Instance Unit_eq_dec : EqDecision Unit.
Proof. solve_decision. Defined.

Inductive Mode := StandardMode | FullPageMode.

Global Instance Mode_eq_dec : EqDecision Mode.
Proof. solve_decision. Defined.

(** The fields of a layout object.  The margins and their bounds are kept in
    the layout's own units.  The full size of the page in these units is a
    function of the page size, the orientation and the units, and is read by
    none of the operations below, so it has no field. *)
Record t := mk {
  pageSize : string;
  landscape : bool;
  mode : Mode;
  units : Unit;
  margins : QMarginsF.t;
  minMargins : QMarginsF.t;
  maxMargins : QMarginsF.t
}.

Global Instance eq_dec : EqDecision t.
Proof. solve_decision. Defined.

Global Instance inhabited : Inhabited t :=
  populate (mk "" false StandardMode Point (QMarginsF.mk 0 0 0 0)
              (QMarginsF.mk 0 0 0 0) (QMarginsF.mk 0 0 0 0)).

(** The number of points in one unit. *)
Definition qt_pointMultiplier (unit : Unit) : Qc :=
  match unit with
  | Millimeter => Q2Qc 2.83464566929
  | Point => 1
  | Inch => Q2Qc 72
  | Pica => Q2Qc 12
  | Didot => Q2Qc 1.065826771
  | Cicero => Q2Qc 12.789921252
  end.

(** Margins are converted to points by rounding to a whole number, and to
    any other unit by rounding to two decimal places; margins that are all
    zero, and margins already in the units asked for, are returned as they
    are. *)
Definition qt_convertMargins (margins : QMarginsF.t) (fromUnits toUnits : Unit)
    : QMarginsF.t :=
  if bool_decide (fromUnits = toUnits) || QMarginsF.isNull margins then margins
  else if bool_decide (toUnits = Point) then
    let multiplier := qt_pointMultiplier fromUnits in
    QMarginsF.mk
      (Qc_of_Z (qRound (QMarginsF.left margins * multiplier)%Qc))
      (Qc_of_Z (qRound (QMarginsF.top margins * multiplier)%Qc))
      (Qc_of_Z (qRound (QMarginsF.right margins * multiplier)%Qc))
      (Qc_of_Z (qRound (QMarginsF.bottom margins * multiplier)%Qc))
  else
    let pointMargins :=
      if bool_decide (fromUnits = Point) then margins
      else QMarginsF.times margins (qt_pointMultiplier fromUnits) in
    let multiplier := qt_pointMultiplier toUnits in
    QMarginsF.mk
      (Qc_of_Z (qRound (QMarginsF.left pointMargins * Q2Qc 100 / multiplier)) / Q2Qc 100)%Qc
      (Qc_of_Z (qRound (QMarginsF.top pointMargins * Q2Qc 100 / multiplier)) / Q2Qc 100)%Qc
      (Qc_of_Z (qRound (QMarginsF.right pointMargins * Q2Qc 100 / multiplier)) / Q2Qc 100)%Qc
      (Qc_of_Z (qRound (QMarginsF.bottom pointMargins * Q2Qc 100 / multiplier)) / Q2Qc 100)%Qc.

(** [setUnits]: the margins and their bounds are converted when the units
    change. *)
Definition setUnits (u : Unit) (l : t) : t :=
  if bool_decide (u ≠ units l) then
    mk (pageSize l) (landscape l) (mode l) u
      (qt_convertMargins (margins l) (units l) u)
      (qt_convertMargins (minMargins l) (units l) u)
      (qt_convertMargins (maxMargins l) (units l) u)
  else l.

(** [marginsPoints]: the margins in points, as whole numbers. *)
Definition marginsPoints (l : t) : QMargins.t :=
  QMarginsF.toMargins (qt_convertMargins (margins l) (units l) Point).

(** The test [setMargins] makes in standard mode. *)
Definition in_range (l : t) (m : QMarginsF.t) : bool :=
  bool_decide (QMarginsF.left (minMargins l) ≤ QMarginsF.left m)%Qc
  && bool_decide (QMarginsF.right (minMargins l) ≤ QMarginsF.right m)%Qc
  && bool_decide (QMarginsF.top (minMargins l) ≤ QMarginsF.top m)%Qc
  && bool_decide (QMarginsF.bottom (minMargins l) ≤ QMarginsF.bottom m)%Qc
  && bool_decide (QMarginsF.left m ≤ QMarginsF.left (maxMargins l))%Qc
  && bool_decide (QMarginsF.right m ≤ QMarginsF.right (maxMargins l))%Qc
  && bool_decide (QMarginsF.top m ≤ QMarginsF.top (maxMargins l))%Qc
  && bool_decide (QMarginsF.bottom m ≤ QMarginsF.bottom (maxMargins l))%Qc.

Definition with_margins (m : QMarginsF.t) (l : t) : t :=
  mk (pageSize l) (landscape l) (mode l) (units l) m
    (minMargins l) (maxMargins l).

(** [setMargins]: the new margins are read in the layout's current units.
    In full page mode they are always taken; in standard mode they are
    taken when each of them lies between the minimum and the maximum margin,
    and otherwise the layout stays as it is and the call returns [False]. *)
Definition setMargins (m : QMarginsF.t) (l : t) : t * bool :=
  if bool_decide (mode l = FullPageMode) then (with_margins m l, true)
  else if in_range l m then (with_margins m l, true)
  else (l, false).

End QPageLayout.

(** Layout objects are shared by reference: the heap maps references to the
    current value of each object. *)
Abbreviation heap := (gmap nat QPageLayout.t).
Abbreviation ref := nat.

(** [QPageLayout(page_layout)]: a new object with the value of the old one. *)
Definition copy_layout (h : heap) (r : ref) : heap * ref :=
  let r' := fresh (dom h) in
  (<[r' := h !!! r]> h, r').

(** ** Render driver *)

Module Renderer.

(** [OK, LOAD_FAILED, KILL_SIGNAL = range(0, 3)] *)
Definition OK : Z := 0.
Definition LOAD_FAILED : Z := 1.
Definition KILL_SIGNAL : Z := 2.

(** What the Qt event loop delivers to the page while it runs.  The bytes
    handed to [printing_done] are represented by the document podofo loads
    from them. *)
Inductive event :=
  | LoadFinished (ok : bool)
  | TimerFired
  | PrintingDone (pdf_data : PDFDoc.t)
  | SignalReceived (readable : bool)
  | ExitCalled (code : Z).

Record t := mk {
  settle_time : Z;
  page_layout : option ref;
  pdf_data : option PDFDoc.t;
  (** every call of [printToPdf], with the value of the layout it read *)
  printed : list (string * QPageLayout.t);
  url : string
}.

(** Each handler returns the code it passes to [QApplication.exit], if it
    calls it. *)
Definition load_finished (r : t) (ok : bool) : t * option Z :=
  if negb ok then (r, Some LOAD_FAILED) else (r, None).

Definition signal_received (r : t) (readable : bool) : t * option Z :=
  if negb readable then (r, None) else (r, Some KILL_SIGNAL).

Definition print_to_pdf (h : heap) (r : t) : t :=
  match page_layout r with
  | Some l => mk (settle_time r) (page_layout r) (pdf_data r)
                (printed r ++ [(url r, h !!! l)]) (url r)
  | None => r
  end.

Definition printing_done (r : t) (data : PDFDoc.t) : t * option Z :=
  (mk (settle_time r) (page_layout r) (Some data) (printed r) (url r), Some OK).

Definition dispatch (h : heap) (r : t) (ev : event) : t * option Z :=
  match ev with
  | LoadFinished ok => load_finished r ok
  | TimerFired => (print_to_pdf h r, None)
  | PrintingDone data => printing_done r data
  | SignalReceived readable => signal_received r readable
  | ExitCalled code => (r, Some code)
  end.

(** [QApplication.exec_()]: events are dispatched until a handler asks the
    loop to exit; the loop then returns the code it was given. *)
Fixpoint run_loop (h : heap) (r : t) (events : list event) : result (Z * t) :=
  match events with
  | [] => Hang
  | ev :: rest =>
      match dispatch h r ev with
      | (r', Some code) => Ok (code, r')
      | (r', None) => run_loop h r' rest
      end
  end.

Definition convert_html_file (h : heap) (r : t) (path : string)
    (page_layout : ref) (settle_time : Z) (events : list event)
    : result (option PDFDoc.t * t) :=
  let r := mk settle_time (Some page_layout) None (printed r) path in
  do (ret, r) <- run_loop h r events;
  if bool_decide (ret = LOAD_FAILED) then
    Raise (SystemExit ("Failed to load " +:+ path))
  else if bool_decide (ret = KILL_SIGNAL) then
    Raise (SystemExit "Kill signal received")
  else if bool_decide (ret ≠ OK) then
    Raise (SystemExit "Unknown error occurred")
  else Ok (pdf_data r, r).

End Renderer.

(** The events of each render, chosen by the world outside the program:
    the [n]-th call of [convert_html_file] sees [render_events n]. *)
Abbreviation schedule := (nat → list Renderer.event).

(** [margins.get(k, d)] *)
Definition margins_get (margins : pyval) (k : string) (d : Qc) : result Qc :=
  match margins with
  | PyDict m => Ok (default d (m !! k))
  | PyNone => Raise (AttributeError "'NoneType' object has no attribute 'get'")
  | PyStr _ => Raise (AttributeError "'unicode' object has no attribute 'get'")
  end.

(** [pdf_doc.load(pdf_data)] *)
Definition podofo_load (pdf_data : option PDFDoc.t) : result PDFDoc.t :=
  match pdf_data with
  | Some d => Ok d
  | None => Raise (TypeError "a bytes-like object is required")
  end.

(** [calls] is a trace kept for the statements below (the program has no
    such variable): the file and the value of the layout object of every
    call of [convert_html_file] made so far. *)
Record render_state := mkRenderState {
  layouts : heap;
  renderer : Renderer.t;
  renders : nat;
  calls : list (string * QPageLayout.t)
}.

(** Lines 178-187: the layout object the group is rendered with.  The
    value [setMargins] returns is dropped, as line 187 drops it. *)
Definition effective_layout (h : heap) (margins : pyval) (page_layout : ref)
    : result (heap * ref) :=
  if truthy margins then
    let '(h, page_layout) := copy_layout h page_layout in
    let h := alter (QPageLayout.setUnits QPageLayout.Point) page_layout h in
    let old_margins := QPageLayout.marginsPoints (h !!! page_layout) in
    do l <- margins_get margins "left" (Qc_of_Z (QMargins.left old_margins));
    do t <- margins_get margins "top" (Qc_of_Z (QMargins.top old_margins));
    do r <- margins_get margins "right" (Qc_of_Z (QMargins.right old_margins));
    do b <- margins_get margins "bottom" (Qc_of_Z (QMargins.bottom old_margins));
    let new_margins := QMarginsF.mk l t r b in
    Ok (alter (λ l, (QPageLayout.setMargins new_margins l).1) page_layout h,
        page_layout)
  else Ok (h, page_layout).

Definition render_name (env : Collaborators) (world : schedule)
    (st : render_state) (name : string) (margins : pyval) (page_layout : ref)
    : result (PDFDoc.t * render_state) :=
  let index_file := name_to_abspath env name in
  do (h, page_layout) <- effective_layout (layouts st) margins page_layout;
  do (pdf_data, r) <-
    Renderer.convert_html_file h (renderer st) index_file page_layout 1
      (world (renders st));
  do pdf_doc <- podofo_load pdf_data;
  Ok (pdf_doc,
      mkRenderState h r (S (renders st))
        (calls st ++ [(index_file, h !!! page_layout)])).

(** ** Page reconciler *)

(** [range(start, stop, -1)] *)
Definition range_down (start stop : Z) : list Z :=
  (λ k : nat, start - Z.of_nat k)%Z <$> seq 0 (Z.to_nat (start - stop)).

(** Lines 273-274. *)
Fixpoint delete_pages (pdf_doc : PDFDoc.t) (rs : list Z) : result PDFDoc.t :=
  match rs with
  | [] => Ok pdf_doc
  | r :: rs' =>
      do pdf_doc <- PDFDoc.delete_page pdf_doc (r - 1)%Z;
      delete_pages pdf_doc rs'
  end.

(** Lines 276-278. *)
Definition shift_location (first_page_num : Z) (loc : AnchorLocation.t)
    : AnchorLocation.t :=
  AnchorLocation.mk (AnchorLocation.pagenum loc + (first_page_num - 1))
    (AnchorLocation.left loc) (AnchorLocation.top loc) (AnchorLocation.zoom loc).

(** The document is changed in place by the source; here the truncated
    document is returned next to the answer. *)
Definition get_anchor_locations (pdf_doc : PDFDoc.t) (first_page_num : Z)
    (toc_uuid : string)
    : result (gmap string AnchorLocation.t * PDFDoc.t) :=
  let anchors := PDFDoc.extract_anchors pdf_doc in
  match anchors !! toc_uuid with
  | None => Raise (KeyError toc_uuid)
  | Some loc =>
      let anchors := delete toc_uuid anchors in
      let toc_pagenum := AnchorLocation.pagenum loc in
      do pdf_doc <-
        delete_pages pdf_doc
          (range_down (PDFDoc.page_count pdf_doc) (toc_pagenum - 1));
      Ok (shift_location first_page_num <$> anchors, pdf_doc)
  end.

(** ** The driver *)

(** What one pass of the loop did: the document as rendered, the page
    count accumulated before the pass, the document after the marker page and
    the pages behind it were deleted, and the locations recorded. *)
Record pass := mkPass {
  rendered : PDFDoc.t;
  pages_before : Z;
  contribution : PDFDoc.t;
  recorded : gmap string AnchorLocation.t
}.

(** [history] is a trace kept for the statements below; the program has the
    other four variables only. *)
Record loop_state := mkLoopState {
  pdf_doc : option PDFDoc.t;
  anchor_locations : gmap string AnchorLocation.t;
  num_pages : Z;
  rstate : render_state;
  history : list pass
}.

(** Lines 296-304: the body of the loop over the margin groups. *)
Definition convert_group (env : Collaborators) (world : schedule)
    (page_layout : ref) (toc_uuid : string) (st : loop_state)
    (group : list Grouper.member) : result loop_state :=
  match group with
  | [] => Raise (IndexError "list index out of range")
  | (name, margins) :: _ =>
      do (doc0, rs) <- render_name env world (rstate st) name margins page_layout;
      do (locs, doc) <- get_anchor_locations doc0 (num_pages st + 1) toc_uuid;
      let anchor_locations' := locs ∪ anchor_locations st in
      let num_pages' := (num_pages st + PDFDoc.page_count doc)%Z in
      let pdf_doc' :=
        match pdf_doc st with
        | None => doc
        | Some acc => PDFDoc.append acc doc
        end in
      Ok (mkLoopState (Some pdf_doc') anchor_locations' num_pages' rs
            (history st ++ [mkPass doc0 (num_pages st) doc locs]))
  end.

Fixpoint convert_groups (env : Collaborators) (world : schedule)
    (page_layout : ref) (toc_uuid : string) (st : loop_state)
    (margin_groups : list (list Grouper.member)) : result loop_state :=
  match margin_groups with
  | [] => Ok st
  | group :: rest =>
      do st' <- convert_group env world page_layout toc_uuid st group;
      convert_groups env world page_layout toc_uuid st' rest
  end.

Definition none_has_no (attr : string) : exn :=
  AttributeError ("'NoneType' object has no attribute '" +:+ attr +:+ "'").

(** [add_cover]: the cover is drawn on one page, which is then put in front
    of the document.  Drawing the image is outside the module; the page is
    represented by the image data. *)
Definition add_cover (pdf_doc : option PDFDoc.t) (cover_data : string)
    : result (option PDFDoc.t) :=
  let cover_pdf_doc := PDFDoc.mk [cover_data] ∅ None in
  match pdf_doc with
  | None => Raise (none_has_no "insert_existing_page")
  | Some d => do d' <- PDFDoc.insert_existing_page d cover_pdf_doc; Ok (Some d')
  end.

(** [update_metadata].  Modelled from the spec: [set_metadata_implementation]
    writes title, authors, producer and tags into the document; a metadata
    object counts as true when it says anything. *)
Definition metadata_truthy (mi : Metadata) : bool :=
  negb (bool_decide (title mi = "" ∧ authors mi = [] ∧ tags mi = [])).

Definition update_metadata (pdf_doc : option PDFDoc.t) (mi : Metadata)
    : result (option PDFDoc.t) :=
  if metadata_truthy mi then
    match pdf_doc with
    | None => Raise (none_has_no "title")
    | Some d => Ok (Some (PDFDoc.set_metadata d mi))
    end
  else Ok pdf_doc.

(** [pdf_doc.write()]; the bytes are represented by the document they hold. *)
Definition pdf_write (pdf_doc : option PDFDoc.t) : result PDFDoc.t :=
  match pdf_doc with
  | None => Raise (none_has_no "write")
  | Some d => Ok d
  end.

Inductive output :=
  | Returned (pdf_data : PDFDoc.t)
  | Written (output_path : string) (pdf_data : PDFDoc.t).

Record conversion := mkConversion {
  final_container : Container;
  final_state : loop_state;
  produced : output
}.

Definition base_layout_ref : ref := 0.

(** Lines 283-304: everything up to the end of the render loop. *)
Definition convert_render (env : Collaborators) (world : schedule)
    (c : Container) (base : QPageLayout.t)
    : result (Container * loop_state) :=
  let c := Uniquifier.make_anchors_unique env c in
  let '(margin_groups, c) := Grouper.create_margin_groups env c in
  let toc := get_toc env c in
  do (toc_uuid, c) <- TocMarker.add_toc_links env c toc margin_groups;
  let c := commit c in
  let renderer := Renderer.mk 0 None None [] "" in
  let h : heap := {[ base_layout_ref := base ]} in
  let st := mkLoopState None ∅ 0 (mkRenderState h renderer 0 []) [] in
  do st <- convert_groups env world base_layout_ref toc_uuid st margin_groups;
  Ok (c, st).

Definition is_true_bytes (data : option string) : option string :=
  match data with
  | Some s => if bool_decide (s = "") then None else Some s
  | None => None
  end.

(** Lines 308-322. *)
Definition finish (pdf_doc : option PDFDoc.t) (metadata : option Metadata)
    (output_path : option string) (cover_data : option string)
    : result output :=
  do pdf_doc <-
    match is_true_bytes cover_data with
    | Some data => add_cover pdf_doc data
    | None => Ok pdf_doc
    end;
  do pdf_doc <-
    match metadata with
    | Some mi => update_metadata pdf_doc mi
    | None => Ok pdf_doc
    end;
  do pdf_data <- pdf_write pdf_doc;
  match output_path with
  | None => Ok (Returned pdf_data)
  | Some path => Ok (Written path pdf_data)
  end.

Definition convert (env : Collaborators) (world : schedule)
    (c : Container) (base : QPageLayout.t) (metadata : option Metadata)
    (output_path : option string) (cover_data : option string)
    : result conversion :=
  do (c, st) <- convert_render env world c base;
  do out <- finish (pdf_doc st) metadata output_path cover_data;
  Ok (mkConversion c st out).

(** * Notions used in the statements *)

(** The events whose handler asks the event loop to exit. *)
Definition exits (ev : Renderer.event) : bool :=
  match ev with
  | Renderer.LoadFinished ok => negb ok
  | Renderer.TimerFired => false
  | Renderer.PrintingDone _ => true
  | Renderer.SignalReceived readable => readable
  | Renderer.ExitCalled _ => true
  end.

(** The three messages a failed render can carry. *)
Definition load_failure (path : string) : exn := SystemExit ("Failed to load " +:+ path).
Definition kill_signal : exn := SystemExit "Kill signal received".
Definition unknown_error : exn := SystemExit "Unknown error occurred".

(** The margins of a layout in points, each rounded to a whole number. *)
Definition whole_points (l : QPageLayout.t) : QMargins.t :=
  let m := QPageLayout.margins l in
  let k := QPageLayout.qt_pointMultiplier (QPageLayout.units l) in
  QMargins.mk (qRound (QMarginsF.left m * k)%Qc) (qRound (QMarginsF.top m * k)%Qc)
    (qRound (QMarginsF.right m * k)%Qc) (qRound (QMarginsF.bottom m * k)%Qc).

(** The margins obtained by laying an override over the old margins: a
    dimension named by the override takes its value from it, the others
    keep the old value. *)
Definition override (d : gmap string Qc) (old : QMargins.t) : QMarginsF.t :=
  QMarginsF.mk
    (match d !! "left" with Some v => v | None => Qc_of_Z (QMargins.left old) end)
    (match d !! "top" with Some v => v | None => Qc_of_Z (QMargins.top old) end)
    (match d !! "right" with Some v => v | None => Qc_of_Z (QMargins.right old) end)
    (match d !! "bottom" with Some v => v | None => Qc_of_Z (QMargins.bottom old) end).

(** Each margin lies between the two bounds. *)
Definition between (lo m hi : QMarginsF.t) : Prop :=
  (QMarginsF.left lo ≤ QMarginsF.left m ∧ QMarginsF.left m ≤ QMarginsF.left hi)%Qc ∧
  (QMarginsF.top lo ≤ QMarginsF.top m ∧ QMarginsF.top m ≤ QMarginsF.top hi)%Qc ∧
  (QMarginsF.right lo ≤ QMarginsF.right m ∧ QMarginsF.right m ≤ QMarginsF.right hi)%Qc ∧
  (QMarginsF.bottom lo ≤ QMarginsF.bottom m ∧ QMarginsF.bottom m ≤ QMarginsF.bottom hi)%Qc.

(** The margins a layout takes when they are set: any margins in full page
    mode, margins within the bounds of the layout otherwise. *)
Definition admissible (l : QPageLayout.t) (m : QMarginsF.t) : Prop :=
  QPageLayout.mode l = QPageLayout.FullPageMode ∨
  between (QPageLayout.minMargins l) m (QPageLayout.maxMargins l).

Global Instance between_dec lo m hi : Decision (between lo m hi).
Proof. unfold between. apply _. Defined.

Global Instance admissible_dec l m : Decision (admissible l m).
Proof. unfold admissible. apply _. Defined.

(** The layout a group with the given margins is rendered with, as a value
    computed from the base layout alone. *)
Definition layout_for (base : QPageLayout.t) (margins : pyval) : QPageLayout.t :=
  match margins with
  | PyDict d =>
      if bool_decide (d = ∅) then base
      else
        let copy := QPageLayout.setUnits QPageLayout.Point base in
        (QPageLayout.setMargins (override d (QPageLayout.marginsPoints copy)) copy).1
  | _ => base
  end.

(** The call of the renderer a group gives rise to. *)
Definition group_call (env : Collaborators) (base : QPageLayout.t)
    (group : list Grouper.member) : option (string * QPageLayout.t) :=
  match group with
  | (name, margins) :: _ => Some (name_to_abspath env name, layout_for base margins)
  | [] => None
  end.

(** The state in which [convert] enters its loop. *)
Definition initial_loop_state (rs : render_state) : loop_state :=
  mkLoopState None ∅ 0 rs [].

(** The pages contributed by a list of passes. *)
Definition total_pages (ps : list pass) : Z :=
  foldr (λ p acc, PDFDoc.page_count (contribution p) + acc)%Z 0%Z ps.

(** The page the marker lies on in a rendered document. *)
Definition marker_page (toc_uuid : string) (doc : PDFDoc.t) : option Z :=
  AnchorLocation.pagenum <$> PDFDoc.anchors doc !! toc_uuid.

(** A rendered document keeps its content before the marker when the marker
    lies on one of its pages and every other anchor lies on an earlier page,
    pages being counted from one. *)
Definition content_before_marker (toc_uuid : string) (doc : PDFDoc.t) : Prop :=
  match marker_page toc_uuid doc with
  | Some m =>
      (m ≤ PDFDoc.page_count doc)%Z ∧
      map_Forall (λ a loc, a ≠ toc_uuid →
                    (1 ≤ AnchorLocation.pagenum loc < m)%Z) (PDFDoc.anchors doc)
  | None => False
  end.

(** What holds of the loop's variables after any number of passes. *)
Definition loop_inv (toc_uuid : string) (st : loop_state) : Prop :=
  num_pages st = total_pages (history st) ∧
  (∀ i p, history st !! i = Some p →
     pages_before p = total_pages (take i (history st)) ∧
     get_anchor_locations (rendered p) (pages_before p + 1) toc_uuid
     = Ok (recorded p, contribution p)) ∧
  match pdf_doc st with
  | None => history st = []
  | Some d =>
      PDFDoc.pages d = concat ((PDFDoc.pages ∘ contribution) <$> history st)
      ∧ history st ≠ []
  end ∧
  (∀ a loc, anchor_locations st !! a = Some loc →
     ∃ p, p ∈ history st ∧ recorded p !! a = Some loc).

(** What [replacer] does with a link once its section is known: the link is
    rewritten when the pair of section and fragment has a new identifier and
    is left as it is otherwise.  [prefix] is what stays in front of the
    fragment. *)
Definition retarget (mapping : Uniquifier.anchor_map) (url : string)
    (resolved : option string) (prefix frag : string) : string * bool :=
  match resolved with
  | None => (url, false)
  | Some name =>
      if bool_decide (name = "") then (url, false)
      else match mapping !! (name, Some frag) with
           | Some new_frag => (prefix +:+ "#" +:+ new_frag, true)
           | None => (url, false)
           end
  end.

(** The spine sections with the margins read from each of them. *)
Definition sections (env : Collaborators) (c : Container) : list Grouper.member :=
  (λ item : string * bool, (item.1, Grouper.read_margins env (parsed c item.1)))
    <$> spine_names c.

(** All members of a run have equal margins. *)
Definition uniform (run : list Grouper.member) : Prop :=
  ∀ a b, a ∈ run → b ∈ run → a.2 = b.2.

(** Consecutive runs cannot be joined: where one run ends and the next
    begins, the margins differ. *)
Definition maximal (runs : list (list Grouper.member)) : Prop :=
  ∀ i r1 r2 a b,
    runs !! i = Some r1 → runs !! S i = Some r2 →
    list.last r1 = Some a → head r2 = Some b → a.2 ≠ b.2.

(** [runs] cuts [secs] into its maximal runs of equal margins. *)
Definition run_partition (secs : list Grouper.member)
    (runs : list (list Grouper.member)) : Prop :=
  concat runs = secs ∧
  Forall (λ run, run ≠ [] ∧ uniform run) runs ∧
  maximal runs.

(** A run of two or more sections becomes one section with the name and the
    margins of its first member. *)
Definition merged (run : list Grouper.member) : list Grouper.member :=
  match run with
  | first :: _ :: _ => [first]
  | _ => run
  end.

(** The call of [merge_html] a run gives rise to, if any. *)
Definition merge_call (run : list Grouper.member) : option (list string * string) :=
  match run with
  | (name0, _) :: _ :: _ => Some (run.*1, name0)
  | _ => None
  end.

(** [merge_html] leaves the margins attribute of the files it is not asked
    to merge as it was. *)
Definition merge_html_keeps_margins (env : Collaborators) : Prop :=
  ∀ c names master name,
    name ∉ names →
    elem_get Grouper.margins_attr (parsed (merge_html env c names master) name)
    = elem_get Grouper.margins_attr (parsed c name).

(** The runs closed while [secs] is read with [cur] as the open run, and the
    run left open at the end. *)
Fixpoint split_runs (cur secs : list Grouper.member)
    : list (list Grouper.member) * list Grouper.member :=
  match secs with
  | [] => ([], cur)
  | s :: secs' =>
      match list.last cur with
      | Some (_, prev_margins) =>
          if bool_decide (prev_margins ≠ s.2)
          then let '(runs, fin) := split_runs [s] secs' in (cur :: runs, fin)
          else split_runs (cur ++ [s]) secs'
      | None => split_runs (cur ++ [s]) secs'
      end
  end.

Definition all_runs (secs : list Grouper.member) : list (list Grouper.member) :=
  let '(runs, fin) := split_runs [] secs in
  match fin with
  | [] => runs
  | _ :: _ => runs ++ [fin]
  end.

(** The fragments the table of contents reaches in the file [name]. *)
Definition reachable (toc : TOC) (name fragment : string) : Prop :=
  ∃ item, item ∈ TocMarker.iterdescendants toc ∧
          TocMarker.nonempty (dest item) = Some name ∧
          TocMarker.nonempty (frag item) = Some fragment.

(** The anchors [add_toc_links] hands to [add_anchors_markup] for [name], in
    the order in which the set is enumerated. *)
Definition marker_anchors (toc : TOC) (name : string) : list string :=
  elements (default ∅ (TocMarker.build_name_anchor_map toc !! name)).

(** The body of the file ends with the marker. *)
Definition ends_with_marker (root : Elem) (marker : Elem) : Prop :=
  ∃ body, list.last (children root) = Some body ∧
          list.last (children body) = Some marker.

(** The names the groups are addressed by. *)
Definition representatives (margin_groups : list (list Grouper.member)) : list string :=
  omap (λ group, fst <$> head group) margin_groups.

(** The [href] attributes of the children of an element. *)
Definition hrefs (e : Elem) : list (option string) :=
  elem_get "href" <$> children e.

(** The [id] attribute of the element at a path, if there is one. *)
Definition get_id (root : Elem) (p : path) : option string :=
  get_elem p root ≫= elem_get "id".

(** The pair of section and identifier that [make_anchors_unique] meets at
    each element carrying an identifier, in the order of the traversal:
    spine order, then document order within a section. *)
Definition encountered (c : Container) : list (string * option string) :=
  concat ((λ item : string * bool,
             (λ p, (item.1, get_id (parsed c item.1) p))
               <$> xpath_id (parsed c item.1)) <$> spine_names c).

(** The identifiers that the same elements carry in the container [c']. *)
Definition ids_after (c c' : Container) : list (option string) :=
  concat ((λ item : string * bool,
             get_id (parsed c' item.1) <$> xpath_id (parsed c item.1))
            <$> spine_names c).

(** Rewriting the links of a file leaves the [id] attributes alone. *)
Definition replace_links_keeps_ids (env : Collaborators) : Prop :=
  ∀ name f root p, get_id (replace_links env name f root) p = get_id root p.

(** The loop body of [make_anchors_unique] seen on the identifier alone:
    the state after it and the identifier the element carries then. *)
Definition assign_key (st : Uniquifier.state) (key : string * option string)
    : Uniquifier.state * option string :=
  let count := S (Uniquifier.count st) in
  match Uniquifier.mapping st !! key with
  | Some _ => (Uniquifier.mkState (Uniquifier.mapping st) count, key.2)
  | None =>
      (Uniquifier.mkState (<[key := Uniquifier.new_id count]> (Uniquifier.mapping st)) count,
       Some (Uniquifier.new_id count))
  end.

Fixpoint assign_keys (st : Uniquifier.state) (keys : list (string * option string))
    : Uniquifier.state * list (option string) :=
  match keys with
  | [] => (st, [])
  | key :: keys' =>
      let '(st1, out) := assign_key st key in
      let '(st2, outs) := assign_keys st1 keys' in
      (st2, out :: outs)
  end.


(** * Sample inputs *)

Definition elem (tag : string) (attrs : list (string * string))
    (children : list Elem) : Elem :=
  mkElem tag (list_to_map attrs) "" "" children.

(** The text of a margins attribute: a JSON object with the key [top]. *)
Definition quote : string := String (Ascii.ascii_of_nat 34) "".
Definition top_36 : string := "{" +:+ quote +:+ "top" +:+ quote +:+ ": 36}".

(** Section A: no override, three anchors.  Section B: an override of the
    top margin, one anchor. *)
Definition doc_a : Elem :=
  elem "html" []
    [elem "head" [] [];
     elem "body" []
       [elem "h1" [("id", "intro")] [];
        elem "p" [("id", "a1")] [];
        elem "p" [("id", "a2")] []]].

Definition doc_b : Elem :=
  elem "html" [(Grouper.margins_attr, top_36)]
    [elem "body" [] [elem "p" [("id", "b1")] []]].

Definition sample_files (name : string) : Elem :=
  if bool_decide (name = "a.html") then doc_a
  else if bool_decide (name = "b.html") then doc_b
  else elem "ncx" [] [].

Definition sample_book : Container :=
  mkContainer [("a.html", true); ("b.html", true)]
    ["a.html"; "b.html"; "toc.ncx"] sample_files ∅ false.

Definition sample_toc : TOC :=
  mkTOC None None
    [mkTOC (Some "a.html") (Some "a1") [];
     mkTOC (Some "b.html") (Some "a4") []].

(** A container whose files all lie in one directory: an href is the name
    of the file it points to.  Links and merges are left out. *)
Definition sample_env : Collaborators :=
  mkCollaborators
    (λ href base, if bool_decide (href = "") then None else Some href)
    (λ name, "/book/" +:+ name)
    (λ _ _ root, root)
    (λ c _ _, c)
    (λ s, if bool_decide (s = top_36) then {[ "top" := Q2Qc 36 ]} else ∅)
    (λ _, sample_toc)
    "marker".

(** [os.path.dirname] of a name, with the separator that ends it. *)
Fixpoint has_slash (name : string) : bool :=
  match name with
  | EmptyString => false
  | String c rest => Ascii.eqb c "/"%char || has_slash rest
  end.

Fixpoint dirname (name : string) : string :=
  match name with
  | EmptyString => EmptyString
  | String c rest => if has_slash name then String c (dirname rest) else EmptyString
  end.

(** A container whose files lie in directories: an href is a path relative
    to the directory of the file that holds the link, and its name is that
    directory followed by the href. *)
Definition nested_env : Collaborators :=
  mkCollaborators
    (λ href base, if bool_decide (href = "") then None
                  else Some (dirname base +:+ href))
    (λ name, "/book/" +:+ name)
    (λ _ _ root, root)
    (λ c _ _, c)
    (λ _, ∅)
    (λ _, mkTOC None None [])
    "marker".

(** A book whose only section lies in the directory [text]. *)
Definition nested_book : Container :=
  mkContainer [("text/ch1.html", true)] ["text/ch1.html"] (λ _, doc_a) ∅ false.

Definition at_page (n : Z) : AnchorLocation.t := AnchorLocation.mk n 0 0 0.

(** Section A renders to two pages of content and the marker page, section
    B to one page of content and the marker page. *)
Definition rendered_a : PDFDoc.t :=
  PDFDoc.mk ["A1"; "A2"; "marker of A"]
    (<["a1" := at_page 1]> {[ "marker" := at_page 3 ]}) None.

Definition rendered_b : PDFDoc.t :=
  PDFDoc.mk ["B1"; "marker of B"]
    (<["a4" := at_page 1]> {[ "marker" := at_page 2 ]}) None.

Definition renders_of (doc : PDFDoc.t) : list Renderer.event :=
  [Renderer.LoadFinished true; Renderer.TimerFired; Renderer.PrintingDone doc].

Definition sample_world : schedule :=
  λ n, match n with 0 => renders_of rendered_a | _ => renders_of rendered_b end.

(** An A4 page, 595 by 842 points, with margins of one inch. *)
Definition sample_layout : QPageLayout.t :=
  QPageLayout.mk "A4" false QPageLayout.StandardMode QPageLayout.Point
    (QMarginsF.mk (Q2Qc 72) (Q2Qc 72) (Q2Qc 72) (Q2Qc 72))
    (QMarginsF.mk 0 0 0 0)
    (QMarginsF.mk (Q2Qc 595) (Q2Qc 842) (Q2Qc 595) (Q2Qc 842)).

(** An A4 page in full page mode, with margins of 36.5 points. *)
Definition fine_layout : QPageLayout.t :=
  QPageLayout.mk "A4" false QPageLayout.FullPageMode QPageLayout.Point
    (QMarginsF.mk (Q2Qc 36.5) (Q2Qc 36.5) (Q2Qc 36.5) (Q2Qc 36.5))
    (QMarginsF.mk 0 0 0 0)
    (QMarginsF.mk (Q2Qc 595) (Q2Qc 842) (Q2Qc 595) (Q2Qc 842)).

(** A section in which two elements carry the same identifier. *)
Definition doc_dup : Elem :=
  elem "html" []
    [elem "body" []
       [elem "p" [("id", "x")] [];
        elem "p" [("id", "x")] []]].

Definition dup_book : Container :=
  mkContainer [("s.html", true)] ["s.html"] (λ _, doc_dup) ∅ false.

(** A rendering in which an anchor lies behind the marker page. *)
Definition rendered_late : PDFDoc.t :=
  PDFDoc.mk ["S1"; "marker of S"; "S2"]
    (<["x" := at_page 3]> {[ "marker" := at_page 2 ]}) None.

Definition late_world : schedule := λ _, renders_of rendered_late.

Definition late_book : Container :=
  mkContainer [("s.html", true)] ["s.html"] (λ _, doc_dup) ∅ false.

Definition empty_book : Container := mkContainer [] [] sample_files ∅ false.

(** A book whose first two sections have no override and whose third has
    one. *)
Definition three_book : Container :=
  mkContainer [("a.html", true); ("c.html", true); ("b.html", true)]
    ["a.html"; "b.html"; "c.html"] sample_files ∅ false.

(** The render state and the groups with which [convert] enters its loop on
    the sample book. *)
Definition sample_render_state : render_state :=
  mkRenderState {[ base_layout_ref := sample_layout ]}
    (Renderer.mk 0 None None [] "") 0 [].

Definition sample_margin_groups : list (list Grouper.member) :=
  [[("a.html", PyNone)]; [("b.html", PyDict {[ "top" := Q2Qc 36 ]})]].

(** * Properties *)

(** ** Render driver: outcomes of [convert_html_file] *)

Section render_outcomes.
Import Renderer.

Lemma dispatch_fields h r ev r' code :
  dispatch h r ev = (r', code) →
  page_layout r' = page_layout r ∧ url r' = url r ∧
  settle_time r' = settle_time r.
Proof.
  destruct ev as [ok| |data|readable|c]; simpl.
  - unfold load_finished. destruct ok; simpl; intros [= <- _]; done.
  - unfold print_to_pdf. destruct (page_layout r) eqn:E; intros [= <- _]; done.
  - intros [= <- _]; done.
  - unfold signal_received. destruct readable; simpl; intros [= <- _]; done.
  - intros [= <- _]; done.
Qed.

Lemma run_loop_fields h events : ∀ r ret r',
  run_loop h r events = Ok (ret, r') →
  page_layout r' = page_layout r ∧ url r' = url r.
Proof.
  induction events as [|ev rest IH]; intros r ret r'; simpl; [done|].
  destruct (dispatch h r ev) as [r1 [code|]] eqn:Hd.
  - intros [= _ <-]. apply dispatch_fields in Hd. tauto.
  - intros Hrun. apply IH in Hrun. apply dispatch_fields in Hd.
    destruct Hrun as [-> ->]. tauto.
Qed.

Lemma run_loop_not_raise h events : ∀ r e, run_loop h r events ≠ Raise e.
Proof.
  induction events as [|ev rest IH]; intros r e; simpl; [done|].
  destruct (dispatch h r ev) as [r1 [code|]]; [done|apply IH].
Qed.

Lemma dispatch_exits h r ev : is_Some (dispatch h r ev).2 ↔ exits ev = true.
Proof.
  destruct ev as [[]| |data|[]|c]; cbn; split; intros H;
    first [done | by eexists | by destruct H as [? [=]]].
Qed.

Lemma run_loop_returns h events : ∀ r,
  (∃ ev, ev ∈ events ∧ exits ev = true) ↔ ∃ out, run_loop h r events = Ok out.
Proof.
  induction events as [|ev rest IH]; intros r; simpl.
  - split; [intros (ev & Hin & _); by apply elem_of_nil in Hin|intros [? [=]]].
  - destruct (dispatch h r ev) as [r1 [code|]] eqn:Hd.
    + split; [eauto|]. intros _. exists ev. split; [left|].
      apply (dispatch_exits h r). rewrite Hd. by eexists.
    + rewrite <- IH. split.
      * intros (ev' & Hin & Hex). apply elem_of_cons in Hin as [->|Hin]; [|eauto].
        apply (dispatch_exits h r) in Hex. rewrite Hd in Hex. by destruct Hex.
      * intros (ev' & Hin & Hex). exists ev'. split; [by right|done].
Qed.

(** When no other part of the application asks the loop to exit, the OK
    code comes from [printing_done], which has stored the data. *)
Lemma run_loop_ok_data h events : ∀ r r',
  (∀ code, ExitCalled code ∉ events) →
  run_loop h r events = Ok (OK, r') →
  ∃ data, PrintingDone data ∈ events ∧ pdf_data r' = Some data.
Proof.
  induction events as [|ev rest IH]; intros r r' Hno; simpl; [done|].
  destruct (dispatch h r ev) as [r1 [code|]] eqn:Hd.
  - intros [= -> ->]. destruct ev as [[]| |data|[]|c]; simplify_eq/=.
    + exists data. split; [left|]. unfold printing_done in Hd. by simplify_eq.
    + destruct (Hno OK). left.
  - intros Hrun. apply IH in Hrun as (data & Hin & Hdata).
    + exists data. split; [by right|done].
    + intros code Hin. apply (Hno code). by right.
Qed.

End render_outcomes.

(** C6. Every call of [convert_html_file] whose event loop exits ends in
    exactly one way, decided by the exit code: with OK it returns the data
    stored by the renderer; with LOAD_FAILED, KILL_SIGNAL or any other code
    it raises SystemExit with a message of its own, and returns nothing.
    The three messages are pairwise different whatever the path is, and the
    call returns if and only if some event makes a handler exit the loop. *)
Theorem convert_html_file_outcomes h r path page_layout settle_time events :
  let r0 := Renderer.mk settle_time (Some page_layout) None (Renderer.printed r) path in
  let res := Renderer.convert_html_file h r path page_layout settle_time events in
  match Renderer.run_loop h r0 events with
  | Ok (ret, r') =>
      res = (if decide (ret = Renderer.OK) then Ok (Renderer.pdf_data r', r')
             else if decide (ret = Renderer.LOAD_FAILED) then Raise (load_failure path)
             else if decide (ret = Renderer.KILL_SIGNAL) then Raise kill_signal
             else Raise unknown_error)
  | Raise _ => False
  | Hang => res = Hang
  end
  ∧ ((∃ ev, ev ∈ events ∧ exits ev = true) ↔ res ≠ Hang)
  ∧ load_failure path ≠ kill_signal
  ∧ load_failure path ≠ unknown_error
  ∧ kill_signal ≠ unknown_error.
Proof.
  intros r0 res. split; [|split].
  - subst res. unfold Renderer.convert_html_file. fold r0.
    destruct (Renderer.run_loop h r0 events) as [[ret r']|e|] eqn:Hrun; simpl.
    + unfold Renderer.LOAD_FAILED, Renderer.KILL_SIGNAL, Renderer.OK.
      repeat case_bool_decide; repeat case_decide; try done; lia.
    + by apply run_loop_not_raise in Hrun.
    + done.
  - rewrite (run_loop_returns h events r0).
    subst res. unfold Renderer.convert_html_file. fold r0.
    destruct (Renderer.run_loop h r0 events) as [[ret r']|e|] eqn:Hrun; simpl.
    + split; [|eauto]. intros _. repeat case_bool_decide; done.
    + by apply run_loop_not_raise in Hrun.
    + split; [intros [? [=]]|done].
  - unfold load_failure, kill_signal, unknown_error. repeat split; intros [=].
Qed.

(** ** Render driver: what a call prints and returns *)

Section printing.
Import Renderer.




End printing.



(** ** Render driver: the layout of a group *)

Ltac qc_to_q :=
  unfold Qcle, Qclt, Qcminus, Qcplus, Qcopp, Qcmult, Qc_of_Z, half, Q2Qc, Z.sub in *;
  cbn [this] in *;
  rewrite ?Qred_correct, ?inject_Z_plus, ?inject_Z_opp in *;
  change (inject_Z 1) with 1%Q in *; change (inject_Z 0) with 0%Q in *.

Lemma Qfloor_unique (x : Q) (n : Z) :
  (inject_Z n <= x)%Q → (x < inject_Z (n + 1))%Q → Qfloor x = n.
Proof.
  intros Hlo Hhi.
  pose proof (Qfloor_le x) as H1. pose proof (Qlt_floor x) as H2.
  assert (inject_Z n < inject_Z (Qfloor x + 1))%Q as H3 by lra.
  assert (inject_Z (Qfloor x) < inject_Z (n + 1))%Q as H4 by lra.
  rewrite <- Zlt_Qlt in H3, H4. lia.
Qed.

(** [qRound] rounds to the nearest whole number, a half going up. *)
Lemma qRound_floor (d : Qc) : qRound d = Qfloor (d + half)%Qc.
Proof.
  unfold qRound, to_int.
  case_bool_decide as Hd.
  - case_bool_decide as H; [done|]. exfalso; apply H. qc_to_q. lra.
  - assert (¬ (0 ≤ d - 1)%Qc) as Hd1. { qc_to_q. lra. }
    rewrite (bool_decide_false _ Hd1).
    set (t := Qceiling (d - 1)%Qc).
    pose proof (Qle_ceiling (d - 1)%Qc) as H1.
    pose proof (Qceiling_lt (d - 1)%Qc) as H2. fold t in H1, H2.
    case_bool_decide as H; [|exfalso; apply H].
    2:{ qc_to_q. lra. }
    pose proof (Qfloor_le (d - Qc_of_Z t + half)%Qc) as H3.
    pose proof (Qlt_floor (d - Qc_of_Z t + half)%Qc) as H4.
    set (f := Qfloor (d - Qc_of_Z t + half)%Qc) in *. clearbody f t.
    symmetry. apply Qfloor_unique; qc_to_q; lra.
Qed.

Lemma qRound_Z (n : Z) : qRound (Qc_of_Z n) = n.
Proof. rewrite qRound_floor. apply Qfloor_unique; qc_to_q; lra. Qed.

Lemma qRound_near_0 (x : Qc) :
  (- half ≤ x)%Qc → (x < half)%Qc → qRound x = 0%Z.
Proof.
  intros Hlo Hhi. rewrite qRound_floor. apply Qfloor_unique; qc_to_q; lra.
Qed.

Lemma qFuzzyIsNull_bounds (x : Qc) :
  qFuzzyIsNull x = true →
  (- Q2Qc 0.000000000001 ≤ x)%Qc ∧ (x ≤ Q2Qc 0.000000000001)%Qc.
Proof.
  unfold qFuzzyIsNull, qAbs. intros H%bool_decide_eq_true.
  case_bool_decide as Hx; qc_to_q; lra.
Qed.

Lemma qRound_null (x : Qc) (u : QPageLayout.Unit) :
  qFuzzyIsNull x = true →
  qRound x = qRound (x * QPageLayout.qt_pointMultiplier u)%Qc.
Proof.
  intros [Hlo Hhi]%qFuzzyIsNull_bounds.
  rewrite (qRound_near_0 x).
  2,3: qc_to_q; lra.
  symmetry.
  apply qRound_near_0; destruct u; unfold QPageLayout.qt_pointMultiplier;
    qc_to_q; lra.
Qed.

(** What [marginsPoints] returns for the copy that was converted to points:
    the base margins in points, rounded to whole numbers. *)
Lemma marginsPoints_setUnits_Point l :
  QPageLayout.marginsPoints (QPageLayout.setUnits QPageLayout.Point l)
  = whole_points l.
Proof.
  unfold QPageLayout.setUnits. case_bool_decide as Hu.
  - unfold QPageLayout.marginsPoints.
    cbn [QPageLayout.units QPageLayout.margins].
    set (m' := QPageLayout.qt_convertMargins (QPageLayout.margins l) _ _).
    unfold QPageLayout.qt_convertMargins at 1.
    rewrite bool_decide_true by done. cbn [orb]. subst m'.
    unfold QPageLayout.qt_convertMargins.
    rewrite (bool_decide_false (QPageLayout.units l = QPageLayout.Point)) by done.
    cbn [orb]. rewrite bool_decide_true by done.
    unfold whole_points.
    destruct (QMarginsF.isNull (QPageLayout.margins l)) eqn:Hnull.
    + unfold QMarginsF.isNull in Hnull.
      apply andb_true_iff in Hnull
        as [[[Hl Ht]%andb_true_iff Hr]%andb_true_iff Hb].
      unfold QMarginsF.toMargins.
      by rewrite <- !qRound_null.
    + unfold QMarginsF.toMargins.
      cbn [QMarginsF.left QMarginsF.top QMarginsF.right QMarginsF.bottom].
      by rewrite !qRound_Z.
  - assert (QPageLayout.units l = QPageLayout.Point) as Hp.
    { destruct (decide (QPageLayout.Point = QPageLayout.units l)); done. }
    unfold QPageLayout.marginsPoints, whole_points, QPageLayout.qt_convertMargins.
    rewrite Hp. rewrite bool_decide_true by done. cbn [orb].
    unfold QMarginsF.toMargins, QPageLayout.qt_pointMultiplier.
    by rewrite !Qcmult_1_r.
Qed.

Lemma setUnits_fields u l :
  QPageLayout.pageSize (QPageLayout.setUnits u l) = QPageLayout.pageSize l ∧
  QPageLayout.landscape (QPageLayout.setUnits u l) = QPageLayout.landscape l ∧
  QPageLayout.mode (QPageLayout.setUnits u l) = QPageLayout.mode l ∧
  QPageLayout.units (QPageLayout.setUnits u l) = u.
Proof.
  unfold QPageLayout.setUnits. case_bool_decide as Hu; [done|].
  repeat split. destruct (decide (u = QPageLayout.units l)); done.
Qed.

Lemma in_range_between l m :
  QPageLayout.in_range l m = true
  ↔ between (QPageLayout.minMargins l) m (QPageLayout.maxMargins l).
Proof.
  unfold QPageLayout.in_range, between.
  rewrite !andb_true_iff, !bool_decide_eq_true. tauto.
Qed.

(** [setMargins] takes exactly the admissible margins. *)
Lemma setMargins_admissible m l :
  (admissible l m →
   QPageLayout.setMargins m l = (QPageLayout.with_margins m l, true)) ∧
  (¬ admissible l m → QPageLayout.setMargins m l = (l, false)).
Proof.
  unfold QPageLayout.setMargins, admissible. split.
  - intros [Hfull|Hin].
    + by rewrite bool_decide_true.
    + case_bool_decide; [done|].
      apply in_range_between in Hin. by rewrite Hin.
  - intros Hno. rewrite bool_decide_false by tauto.
    destruct (QPageLayout.in_range l m) eqn:Hin; [|done].
    apply in_range_between in Hin. tauto.
Qed.

Lemma setMargins_fields m l :
  QPageLayout.pageSize (QPageLayout.setMargins m l).1 = QPageLayout.pageSize l ∧
  QPageLayout.landscape (QPageLayout.setMargins m l).1 = QPageLayout.landscape l ∧
  QPageLayout.mode (QPageLayout.setMargins m l).1 = QPageLayout.mode l ∧
  QPageLayout.units (QPageLayout.setMargins m l).1 = QPageLayout.units l.
Proof.
  unfold QPageLayout.setMargins.
  case_bool_decide; [done|]. by destruct (QPageLayout.in_range l m).
Qed.

Lemma fresh_ref_new (h : heap) : h !! fresh (dom h) = None.
Proof. apply not_elem_of_dom, is_fresh. Qed.

Lemma effective_layout_dict (h : heap) base_ref base d :
  h !! base_ref = Some base → d ≠ ∅ →
  effective_layout h (PyDict d) base_ref
  = Ok (<[fresh (dom h) := layout_for base (PyDict d)]> h, fresh (dom h)).
Proof.
  intros Hbase Hd. unfold effective_layout, copy_layout; simpl.
  rewrite bool_decide_false by done. simpl.
  rewrite (lookup_total_correct _ _ _ Hbase).
  rewrite alter_insert_eq. rewrite lookup_total_insert_eq.
  rewrite alter_insert_eq.
  reflexivity.
Qed.

Lemma effective_layout_falsy (h : heap) margins base_ref :
  truthy margins = false →
  effective_layout h margins base_ref = Ok (h, base_ref).
Proof. intros Hf. unfold effective_layout. by rewrite Hf. Qed.

Lemma layout_for_falsy base margins :
  truthy margins = false → layout_for base margins = base.
Proof.
  destruct margins as [|s|d]; simpl; [done..|].
  intros Hd. apply negb_false_iff in Hd. by rewrite Hd.
Qed.

Lemma render_name_calls env world st name margins base_ref base doc st' :
  layouts st !! base_ref = Some base →
  render_name env world st name margins base_ref = Ok (doc, st') →
  calls st' = calls st ++ [(name_to_abspath env name, layout_for base margins)].
Proof.
  intros Hbase. unfold render_name.
  destruct (truthy margins) eqn:Ht.
  - destruct margins as [|s|d]; [done| |].
    { unfold effective_layout. rewrite Ht. by destruct (copy_layout _ _). }
    assert (d ≠ ∅) as Hd.
    { simpl in Ht. apply negb_true_iff in Ht. by apply bool_decide_eq_false in Ht. }
    rewrite (effective_layout_dict _ _ base d Hbase Hd).
    cbn [result_bind].
    destruct (Renderer.convert_html_file _ _ _ _ _ _) as [[pdf r]| |];
      cbn [result_bind]; [|done..].
    destruct (podofo_load pdf); cbn [result_bind]; [|done..].
    intros [= _ <-]. cbn [calls]. by rewrite lookup_total_insert_eq.
  - rewrite effective_layout_falsy by done. simpl.
    destruct (Renderer.convert_html_file _ _ _ _ _ _) as [[pdf r]| |]; simpl; [|done..].
    destruct (podofo_load pdf); simpl; [|done..].
    intros [= _ <-]. simpl. rewrite (lookup_total_correct _ _ _ Hbase).
    by rewrite layout_for_falsy.
Qed.

(** C8. A group whose margins are a non-empty override is rendered with a
    copy of the base layout that was converted to points, with the page
    size, the orientation and the mode of the base layout.  The margins asked
    for take every dimension named by the override from the override, and
    for every other dimension the base layout's margin in points rounded to
    a whole number.  When these margins are admissible for the copy (the
    layout is in full page mode, or each of them lies between the copy's
    minimum and maximum margin) they are the margins of the layout the group
    is rendered with; when they are not, the override has no effect and the
    group is rendered with the copy as it was.  A base layout in points with
    whole margins is copied unchanged and its margins are the ones kept.  A
    group without override (missing, empty text or empty object) is rendered
    with the base layout object itself. *)
Theorem render_name_effective_layout (h : heap) base_ref base :
  h !! base_ref = Some base →
  (∀ d, d ≠ ∅ →
     let copy := QPageLayout.setUnits QPageLayout.Point base in
     let wanted := override d (whole_points base) in
     ∃ h' r' eff,
       effective_layout h (PyDict d) base_ref = Ok (h', r') ∧
       h' !! r' = Some eff ∧
       QPageLayout.pageSize eff = QPageLayout.pageSize base ∧
       QPageLayout.landscape eff = QPageLayout.landscape base ∧
       QPageLayout.mode eff = QPageLayout.mode base ∧
       QPageLayout.units eff = QPageLayout.Point ∧
       (admissible copy wanted → QPageLayout.margins eff = wanted) ∧
       (¬ admissible copy wanted → eff = copy)) ∧
  (QPageLayout.units base = QPageLayout.Point →
     QPageLayout.setUnits QPageLayout.Point base = base ∧
     ∀ l t r b : Z,
       QPageLayout.margins base
       = QMarginsF.mk (Qc_of_Z l) (Qc_of_Z t) (Qc_of_Z r) (Qc_of_Z b) →
       whole_points base = QMargins.mk l t r b) ∧
  (∀ margins, truthy margins = false →
     effective_layout h margins base_ref = Ok (h, base_ref)) ∧
  (∀ env world st name margins,
     layouts st = h →
     ∀ doc st', render_name env world st name margins base_ref = Ok (doc, st') →
       calls st' = calls st ++ [(name_to_abspath env name, layout_for base margins)]).
Proof.
  intros Hbase. split; [|split; [|split]].
  - intros d Hd copy wanted. eexists _, _, _.
    split; [by apply effective_layout_dict|].
    split; [apply lookup_insert_eq|].
    cbn [layout_for]. rewrite bool_decide_false by done. cbv zeta.
    rewrite marginsPoints_setUnits_Point. fold copy wanted.
    destruct (setMargins_fields wanted copy) as (Hs & Hl & Hm & Hu).
    destruct (setUnits_fields QPageLayout.Point base) as (Hs' & Hl' & Hm' & Hu').
    fold copy in Hs', Hl', Hm', Hu'.
    rewrite Hs, Hl, Hm, Hu, Hs', Hl', Hm', Hu'.
    do 4 (split; [done|]).
    destruct (setMargins_admissible wanted copy) as [Hyes Hno].
    split.
    + intros Hadm. by rewrite (Hyes Hadm).
    + intros Hadm. by rewrite (Hno Hadm).
  - intros Hu. split.
    + unfold QPageLayout.setUnits. by rewrite bool_decide_false by (by rewrite Hu; intros []).
    + intros l t r b Hm. unfold whole_points. rewrite Hm, Hu.
      cbn [QMarginsF.left QMarginsF.top QMarginsF.right QMarginsF.bottom
           QPageLayout.qt_pointMultiplier].
      by rewrite !Qcmult_1_r, !qRound_Z.
  - intros margins. apply effective_layout_falsy.
  - intros env world st name margins <- doc st'. by apply render_name_calls.
Qed.

(** ** Render driver: the base layout is never changed *)

Lemma effective_layout_frame (h : heap) margins r h' r' :
  effective_layout h margins r = Ok (h', r') →
  (∀ q, is_Some (h !! q) → h' !! q = h !! q) ∧
  (truthy margins = true → h !! r' = None).
Proof.
  unfold effective_layout. destruct (truthy margins) eqn:Ht.
  - unfold copy_layout.
    destruct (margins_get margins "left" _) as [l| |]; simpl; [|done..].
    destruct (margins_get margins "top" _) as [t| |]; simpl; [|done..].
    destruct (margins_get margins "right" _) as [rr| |]; simpl; [|done..].
    destruct (margins_get margins "bottom" _) as [b| |]; simpl; [|done..].
    intros [= <- <-]. split; [|intros _; apply fresh_ref_new].
    intros q [x Hq].
    assert (fresh (dom h) ≠ q) as Hne.
    { intros <-. by rewrite fresh_ref_new in Hq. }
    by rewrite !lookup_alter_ne, lookup_insert_ne.
  - intros [= <- <-]. split; done.
Qed.

Lemma render_name_frame env world st name margins r doc st' :
  render_name env world st name margins r = Ok (doc, st') →
  ∀ q, is_Some (layouts st !! q) → layouts st' !! q = layouts st !! q.
Proof.
  unfold render_name.
  destruct (effective_layout _ _ _) as [[h' r']| |] eqn:He; simpl; [|done..].
  destruct (Renderer.convert_html_file _ _ _ _ _ _) as [[pdf rd]| |]; simpl; [|done..].
  destruct (podofo_load pdf); simpl; [|done..].
  intros [= _ <-]. simpl. by apply effective_layout_frame in He as [He _].
Qed.

Lemma convert_group_render env world r uuid st group st' :
  convert_group env world r uuid st group = Ok st' →
  ∃ name margins rest doc0,
    group = (name, margins) :: rest ∧
    render_name env world (rstate st) name margins r = Ok (doc0, rstate st').
Proof.
  unfold convert_group. destruct group as [|[name margins] rest]; [done|].
  destruct (render_name _ _ _ _ _ _) as [[doc0 rs]| |] eqn:Hr; simpl; [|done..].
  destruct (get_anchor_locations _ _ _) as [[locs doc]| |]; simpl; [|done..].
  intros [= <-]. by eexists _, _, _, _.
Qed.

Lemma convert_groups_layouts env world r uuid base groups : ∀ st st',
  layouts (rstate st) !! r = Some base →
  convert_groups env world r uuid st groups = Ok st' →
  layouts (rstate st') !! r = Some base ∧
  calls (rstate st') = calls (rstate st) ++ omap (group_call env base) groups ∧
  length (omap (group_call env base) groups) = length groups.
Proof.
  induction groups as [|group rest IH]; intros st st' Hbase; simpl.
  - intros [= <-]. by rewrite app_nil_r.
  - destruct (convert_group _ _ _ _ _ _) as [st1| |] eqn:Hg; simpl; [|done..].
    intros Hrest.
    apply convert_group_render in Hg as (name & margins & tl & doc0 & -> & Hr).
    pose proof (render_name_frame _ _ _ _ _ _ _ _ Hr r) as Hfr.
    rewrite Hbase in Hfr. specialize (Hfr (mk_is_Some _ _ eq_refl)).
    pose proof (render_name_calls _ _ _ _ _ _ _ _ _ Hbase Hr) as Hcalls.
    destruct (IH _ _ Hfr Hrest) as (Hb & Hc & Hl).
    split; [done|]. cbn [omap list_omap group_call length]. split; [|by f_equal].
    rewrite Hc, Hcalls. by rewrite <- app_assoc.
Qed.

(** C9. Whatever the margins of a group are, computing its layout leaves
    every layout object that existed before as it was, the base layout among
    them; an override is applied to an object that did not exist before.  So
    after any number of groups the base layout object still has its original
    value, and every group was rendered with the layout that its own margins
    and the original base layout determine. *)
Theorem render_name_keeps_base_layout (h : heap) base_ref base :
  h !! base_ref = Some base →
  (∀ margins h' r',
     effective_layout h margins base_ref = Ok (h', r') →
     h' !! base_ref = Some base ∧
     (truthy margins = true → r' ≠ base_ref ∧ h !! r' = None)) ∧
  (∀ env world toc_uuid margin_groups st st',
     layouts (rstate st) = h →
     convert_groups env world base_ref toc_uuid st margin_groups = Ok st' →
     layouts (rstate st') !! base_ref = Some base ∧
     calls (rstate st')
     = calls (rstate st) ++ omap (group_call env base) margin_groups ∧
     length (omap (group_call env base) margin_groups) = length margin_groups).
Proof.
  intros Hbase. split.
  - intros margins h' r' He. apply effective_layout_frame in He as [Hfr Hnew].
    split; [by rewrite Hfr|]. intros Ht. specialize (Hnew Ht).
    split; [|done]. intros ->. by rewrite Hbase in Hnew.
  - intros env world uuid groups st st' <- Hrun.
    by apply (convert_groups_layouts _ _ _ _ _ _ _ _ Hbase Hrun).
Qed.

(** ** Page reconciler *)

Lemma range_down_nil start stop : (start ≤ stop)%Z → range_down start stop = [].
Proof. intros H. unfold range_down. by replace (Z.to_nat (start - stop)) with 0%nat by lia. Qed.

Lemma range_down_cons start stop :
  (stop < start)%Z →
  range_down start stop = start :: range_down (start - 1) stop.
Proof.
  intros H. unfold range_down.
  replace (Z.to_nat (start - stop)) with (S (Z.to_nat (start - 1 - stop))) by lia.
  rewrite <- cons_seq, fmap_cons. f_equal; [simpl; lia|].
  rewrite <- fmap_S_seq, <- list_fmap_compose.
  apply list_fmap_ext. intros _ k _. simpl. lia.
Qed.

Lemma delete_last_page (l : list string) x a i :
  PDFDoc.delete_page (PDFDoc.mk (l ++ [x]) a i)
    (PDFDoc.page_count (PDFDoc.mk (l ++ [x]) a i) - 1)
  = Ok (PDFDoc.mk l a i).
Proof.
  unfold PDFDoc.delete_page, PDFDoc.page_count; simpl.
  rewrite length_app; simpl. rewrite bool_decide_true by lia.
  do 2 f_equal. replace (Z.to_nat _) with (length l) by lia.
  rewrite delete_middle. apply app_nil_r.
Qed.

Lemma delete_pages_from_end (l : list string) a i stop :
  (0 ≤ stop)%Z →
  delete_pages (PDFDoc.mk l a i)
    (range_down (PDFDoc.page_count (PDFDoc.mk l a i)) stop)
  = Ok (PDFDoc.mk (take (Z.to_nat stop) l) a i).
Proof.
  intros Hstop. induction l as [|x l IH] using rev_ind.
  - rewrite range_down_nil by (unfold PDFDoc.page_count; simpl; lia).
    simpl. by rewrite take_nil.
  - destruct (decide (stop < PDFDoc.page_count (PDFDoc.mk (l ++ [x]) a i))%Z) as [Hlt|Hge].
    + rewrite range_down_cons by done. simpl.
      rewrite delete_last_page. simpl.
      assert (PDFDoc.page_count (PDFDoc.mk (l ++ [x]) a i) - 1
              = PDFDoc.page_count (PDFDoc.mk l a i))%Z as ->.
      { unfold PDFDoc.page_count; simpl. rewrite length_app; simpl. lia. }
      rewrite IH. do 2 f_equal. rewrite take_app_le; [done|].
      unfold PDFDoc.page_count in Hlt; simpl in Hlt.
      rewrite length_app in Hlt; simpl in Hlt. lia.
    + rewrite range_down_nil by lia. simpl. do 2 f_equal.
      rewrite take_ge; [done|].
      unfold PDFDoc.page_count in Hge; simpl in Hge. lia.
Qed.

(** A marker on a page numbered zero or less makes the deletion fail. *)
Lemma delete_pages_bad_marker (l : list string) a i stop :
  (stop < 0)%Z →
  ∃ e, delete_pages (PDFDoc.mk l a i)
         (range_down (PDFDoc.page_count (PDFDoc.mk l a i)) stop) = Raise e.
Proof.
  intros Hstop. induction l as [|x l IH] using rev_ind.
  - rewrite range_down_cons by (unfold PDFDoc.page_count; simpl; lia). simpl.
    by eexists.
  - rewrite range_down_cons by (unfold PDFDoc.page_count; simpl; lia). simpl.
    rewrite delete_last_page. simpl.
    assert (PDFDoc.page_count (PDFDoc.mk (l ++ [x]) a i) - 1
            = PDFDoc.page_count (PDFDoc.mk l a i))%Z as ->; [|done].
    unfold PDFDoc.page_count; simpl. rewrite length_app; simpl. lia.
Qed.

Lemma get_anchor_locations_ok doc first_page_num toc_uuid locs doc' :
  get_anchor_locations doc first_page_num toc_uuid = Ok (locs, doc') →
  ∃ loc,
    PDFDoc.anchors doc !! toc_uuid = Some loc ∧
    (1 ≤ AnchorLocation.pagenum loc)%Z ∧
    locs = shift_location first_page_num <$> delete toc_uuid (PDFDoc.anchors doc) ∧
    doc' = PDFDoc.mk
             (take (Z.to_nat (AnchorLocation.pagenum loc - 1)) (PDFDoc.pages doc))
             (PDFDoc.anchors doc) (PDFDoc.info doc).
Proof.
  unfold get_anchor_locations, PDFDoc.extract_anchors.
  destruct (PDFDoc.anchors doc !! toc_uuid) as [loc|] eqn:Hm; [|done].
  destruct doc as [l a i]. simpl in *.
  destruct (decide (0 ≤ AnchorLocation.pagenum loc - 1)%Z) as [Hm1|Hm1].
  - rewrite delete_pages_from_end by done. simpl. intros [= <- <-].
    exists loc. split_and!; first [done | lia].
  - destruct (delete_pages_bad_marker l a i (AnchorLocation.pagenum loc - 1))
      as [e ->]; [lia|done].
Qed.

Lemma get_anchor_locations_marked doc first_page_num toc_uuid loc :
  PDFDoc.anchors doc !! toc_uuid = Some loc →
  (1 ≤ AnchorLocation.pagenum loc)%Z →
  get_anchor_locations doc first_page_num toc_uuid
  = Ok (shift_location first_page_num <$> delete toc_uuid (PDFDoc.anchors doc),
        PDFDoc.mk
          (take (Z.to_nat (AnchorLocation.pagenum loc - 1)) (PDFDoc.pages doc))
          (PDFDoc.anchors doc) (PDFDoc.info doc)).
Proof.
  intros Hm Hpos. unfold get_anchor_locations, PDFDoc.extract_anchors.
  rewrite Hm. destruct doc as [l a i]. simpl in *.
  by rewrite delete_pages_from_end by lia.
Qed.

Lemma total_pages_app ps qs :
  total_pages (ps ++ qs) = (total_pages ps + total_pages qs)%Z.
Proof. induction ps as [|p ps IH]; simpl; [done|]. rewrite IH. lia. Qed.

Lemma total_pages_nonneg ps : (0 ≤ total_pages ps)%Z.
Proof.
  induction ps as [|p ps IH]; simpl; [done|].
  unfold PDFDoc.page_count. lia.
Qed.

Lemma total_pages_take_le i ps : (total_pages (take i ps) ≤ total_pages ps)%Z.
Proof.
  rewrite <- (take_drop i ps) at 2. rewrite total_pages_app.
  pose proof (total_pages_nonneg (drop i ps)). lia.
Qed.

Lemma convert_group_pass env world r toc_uuid st group st' :
  convert_group env world r toc_uuid st group = Ok st' →
  ∃ p,
    history st' = history st ++ [p] ∧
    pages_before p = num_pages st ∧
    get_anchor_locations (rendered p) (num_pages st + 1) toc_uuid
    = Ok (recorded p, contribution p) ∧
    num_pages st' = (num_pages st + PDFDoc.page_count (contribution p))%Z ∧
    anchor_locations st' = recorded p ∪ anchor_locations st ∧
    pdf_doc st' = Some (match pdf_doc st with
                        | None => contribution p
                        | Some acc => PDFDoc.append acc (contribution p)
                        end).
Proof.
  unfold convert_group. destruct group as [|[name margins] rest]; [done|].
  destruct (render_name _ _ _ _ _ _) as [[doc0 rs]| |]; simpl; [|done..].
  destruct (get_anchor_locations _ _ _) as [[locs doc]| |] eqn:Hg; simpl; [|done..].
  intros [= <-]. by exists (mkPass doc0 (num_pages st) doc locs).
Qed.

Lemma loop_inv_initial toc_uuid rs : loop_inv toc_uuid (initial_loop_state rs).
Proof. repeat split; simpl; intros; simplify_list_eq; simplify_map_eq. Qed.

Lemma loop_inv_step env world r toc_uuid st group st' :
  loop_inv toc_uuid st →
  convert_group env world r toc_uuid st group = Ok st' →
  loop_inv toc_uuid st'.
Proof.
  intros (Hn & Hh & Hd & Ha) Hg.
  apply convert_group_pass in Hg as (p & Hhist & Hbefore & Hgal & Hnum & Hlocs & Hdoc).
  unfold loop_inv. rewrite Hhist, Hnum, Hlocs, Hdoc. split; [|split; [|split]].
  - rewrite total_pages_app, Hn. simpl. lia.
  - intros i q Hq. apply lookup_app_Some in Hq as [Hq|[Hlen Hq]].
    + rewrite take_app_le by (apply lookup_lt_Some in Hq; lia). by apply Hh.
    + apply list_lookup_singleton_Some in Hq as [Hi <-].
      assert (i = length (history st)) as -> by lia.
      rewrite take_app_length. by rewrite Hbefore, <- Hn.
  - split; [|by destruct (history st)].
    rewrite fmap_app, concat_app. simpl. rewrite app_nil_r.
    destruct (pdf_doc st) as [acc|]; simpl.
    + destruct Hd as [-> _]. done.
    + by rewrite Hd.
  - intros a loc Hl. apply lookup_union_Some_raw in Hl as [Hl|[_ Hl]].
    + exists p. split; [|done]. apply elem_of_app. right. left.
    + destruct (Ha a loc Hl) as (q & Hq & Hr). exists q.
      split; [|done]. apply elem_of_app. by left.
Qed.

Lemma convert_groups_inv env world r toc_uuid groups : ∀ st st',
  loop_inv toc_uuid st →
  convert_groups env world r toc_uuid st groups = Ok st' →
  loop_inv toc_uuid st' ∧
  length (history st') = (length (history st) + length groups)%nat.
Proof.
  induction groups as [|group rest IH]; intros st st' Hinv; simpl.
  - intros [= <-]. split; [done|lia].
  - destruct (convert_group _ _ _ _ _ _) as [st1| |] eqn:Hg; simpl; [|done..].
    intros Hrest. pose proof (loop_inv_step _ _ _ _ _ _ _ Hinv Hg) as Hinv1.
    destruct (IH _ _ Hinv1 Hrest) as [Hinv' Hlen]. split; [done|].
    apply convert_group_pass in Hg as (p & Hhist & _).
    rewrite Hlen, Hhist, length_app. simpl. lia.
Qed.

(** The state after the first [i] groups is a state of the same run. *)
Lemma convert_groups_prefix env world r toc_uuid groups : ∀ st st' i,
  convert_groups env world r toc_uuid st groups = Ok st' →
  ∃ sti, convert_groups env world r toc_uuid st (take i groups) = Ok sti ∧
         convert_groups env world r toc_uuid sti (drop i groups) = Ok st'.
Proof.
  induction groups as [|group rest IH]; intros st st' i Hrun.
  - rewrite take_nil, drop_nil. by exists st.
  - destruct i as [|i]; [by exists st|]. simpl in *.
    destruct (convert_group _ _ _ _ _ _) as [st1| |] eqn:Hg; simpl in *; [|done..].
    by apply IH.
Qed.

Lemma convert_groups_history_prefix env world r toc_uuid groups : ∀ st st',
  convert_groups env world r toc_uuid st groups = Ok st' →
  ∃ ps, history st' = history st ++ ps ∧ length ps = length groups.
Proof.
  induction groups as [|group rest IH]; intros st st'; simpl.
  - intros [= <-]. exists []. by rewrite app_nil_r.
  - destruct (convert_group _ _ _ _ _ _) as [st1| |] eqn:Hg; simpl; [|done..].
    intros Hrest. apply IH in Hrest as (ps & Hps & Hlen).
    apply convert_group_pass in Hg as (p & Hhist & _).
    exists (p :: ps). rewrite Hps, Hhist, <- app_assoc. simpl. by rewrite Hlen.
Qed.

Lemma recorded_lookup doc first_page_num toc_uuid locs doc' :
  get_anchor_locations doc first_page_num toc_uuid = Ok (locs, doc') →
  locs !! toc_uuid = None ∧
  ∀ a, a ≠ toc_uuid →
    locs !! a = shift_location first_page_num <$> PDFDoc.anchors doc !! a.
Proof.
  intros Hg. apply get_anchor_locations_ok in Hg as (loc & _ & _ & -> & _).
  split.
  - by rewrite lookup_fmap, lookup_delete_eq.
  - intros a Ha. by rewrite lookup_fmap, lookup_delete_ne.
Qed.

(** C5. When the marker of a rendered document lies on page [m] (pages are
    counted from one), [get_anchor_locations] returns: the answer has no
    entry for the marker, every other anchor keeps its entry, and the pages
    that survive are exactly those before page [m], so the marker page and
    all pages behind it are gone.  A call returns only in this way, and the
    table that [convert] accumulates over all groups never has an entry for
    the marker. *)
Theorem get_anchor_locations_strips_marker (toc_uuid : string) :
  (∀ doc first_page_num loc,
     PDFDoc.anchors doc !! toc_uuid = Some loc →
     (1 ≤ AnchorLocation.pagenum loc)%Z →
     ∃ locs doc',
       get_anchor_locations doc first_page_num toc_uuid = Ok (locs, doc') ∧
       locs !! toc_uuid = None ∧
       (∀ a, a ≠ toc_uuid →
          locs !! a = shift_location first_page_num <$> PDFDoc.anchors doc !! a) ∧
       PDFDoc.pages doc'
       = take (Z.to_nat (AnchorLocation.pagenum loc - 1)) (PDFDoc.pages doc)) ∧
  (∀ doc first_page_num locs doc',
     get_anchor_locations doc first_page_num toc_uuid = Ok (locs, doc') →
     ∃ m, marker_page toc_uuid doc = Some m ∧ (1 ≤ m)%Z ∧
          locs !! toc_uuid = None ∧
          PDFDoc.pages doc' = take (Z.to_nat (m - 1)) (PDFDoc.pages doc)) ∧
  (∀ env world page_layout rs margin_groups st',
     convert_groups env world page_layout toc_uuid (initial_loop_state rs)
       margin_groups = Ok st' →
     anchor_locations st' !! toc_uuid = None ∧
     ∀ p, p ∈ history st' →
       ∃ m, marker_page toc_uuid (rendered p) = Some m ∧ (1 ≤ m)%Z ∧
            PDFDoc.pages (contribution p)
            = take (Z.to_nat (m - 1)) (PDFDoc.pages (rendered p))).
Proof.
  split; [|split].
  - intros doc first loc Hm Hpos. eexists _, _.
    pose proof (get_anchor_locations_marked doc first toc_uuid loc Hm Hpos) as Hg.
    split; [exact Hg|]. destruct (recorded_lookup _ _ _ _ _ Hg) as [H1 H2].
    done.
  - intros doc first locs doc' Hg.
    destruct (recorded_lookup _ _ _ _ _ Hg) as [H1 _].
    apply get_anchor_locations_ok in Hg as (loc & Hm & Hpos & _ & ->).
    exists (AnchorLocation.pagenum loc). unfold marker_page. by rewrite Hm.
  - intros env world r rs groups st' Hrun.
    destruct (convert_groups_inv _ _ _ _ _ _ _ (loop_inv_initial toc_uuid rs) Hrun)
      as [(_ & Hh & _ & Ha) _].
    split.
    + destruct (anchor_locations st' !! toc_uuid) as [loc|] eqn:Hl; [|done].
      destruct (Ha _ _ Hl) as (p & Hp & Hrec).
      apply list_elem_of_lookup in Hp as [i Hi].
      destruct (Hh _ _ Hi) as [_ Hg].
      apply recorded_lookup in Hg as [Hnone _]. by rewrite Hnone in Hrec.
    + intros p Hp. apply list_elem_of_lookup in Hp as [i Hi].
      destruct (Hh _ _ Hi) as [_ Hg].
      apply get_anchor_locations_ok in Hg as (loc & Hm & Hpos & _ & Hc).
      exists (AnchorLocation.pagenum loc). unfold marker_page. rewrite Hm, Hc. done.
Qed.

(** C2 (amended). After any run of the loop of [convert]: there is one pass
    per group; the page count after the first [i] groups is the sum of the
    page counts of their documents taken after the deletion; the locations
    recorded for a group are those of its anchors other than the marker with
    the page count accumulated before the group added to the page number; the
    accumulated document has as many pages as were counted.  If moreover
    every rendered document keeps its content before the marker, every page
    number in the final table lies between 1 and the final page count. *)
Theorem convert_page_offsets env world page_layout toc_uuid rs margin_groups st' :
  convert_groups env world page_layout toc_uuid (initial_loop_state rs)
    margin_groups = Ok st' →
  length (history st') = length margin_groups ∧
  num_pages st' = total_pages (history st') ∧
  (∀ i, ∃ sti,
     convert_groups env world page_layout toc_uuid (initial_loop_state rs)
       (take i margin_groups) = Ok sti ∧
     history sti = take i (history st') ∧
     num_pages sti = total_pages (take i (history st'))) ∧
  (∀ i p, history st' !! i = Some p →
     pages_before p = total_pages (take i (history st')) ∧
     get_anchor_locations (rendered p) (pages_before p + 1) toc_uuid
     = Ok (recorded p, contribution p) ∧
     ∀ a, a ≠ toc_uuid →
       recorded p !! a
       = (λ loc, AnchorLocation.mk (AnchorLocation.pagenum loc + pages_before p)
                   (AnchorLocation.left loc) (AnchorLocation.top loc)
                   (AnchorLocation.zoom loc)) <$> PDFDoc.anchors (rendered p) !! a) ∧
  match pdf_doc st' with
  | Some d => PDFDoc.page_count d = num_pages st'
  | None => margin_groups = []
  end ∧
  ((∀ p, p ∈ history st' → content_before_marker toc_uuid (rendered p)) →
   ∀ a loc, anchor_locations st' !! a = Some loc →
     (1 ≤ AnchorLocation.pagenum loc ≤ num_pages st')%Z).
Proof.
  intros Hrun.
  destruct (convert_groups_inv _ _ _ _ _ _ _ (loop_inv_initial toc_uuid rs) Hrun)
    as [(Hn & Hh & Hd & Ha) Hlen].
  simpl in Hlen.
  assert (∀ i p, history st' !! i = Some p →
     pages_before p = total_pages (take i (history st')) ∧
     get_anchor_locations (rendered p) (pages_before p + 1) toc_uuid
     = Ok (recorded p, contribution p) ∧
     ∀ a, a ≠ toc_uuid →
       recorded p !! a
       = (λ loc, AnchorLocation.mk (AnchorLocation.pagenum loc + pages_before p)
                   (AnchorLocation.left loc) (AnchorLocation.top loc)
                   (AnchorLocation.zoom loc)) <$> PDFDoc.anchors (rendered p) !! a)
    as Hpass.
  { intros i p Hi. destruct (Hh _ _ Hi) as [Hb Hg]. split; [done|]. split; [done|].
    intros a Hne. destruct (recorded_lookup _ _ _ _ _ Hg) as [_ Hrec].
    rewrite (Hrec a Hne). destruct (PDFDoc.anchors (rendered p) !! a) as [loc|]; [|done].
    simpl. unfold shift_location. do 2 f_equal. lia. }
  split; [done|]. split; [done|]. split; [|split; [done|split]].
  - intros i.
    destruct (convert_groups_prefix _ _ _ _ _ _ _ i Hrun) as (sti & Hpre & Hpost).
    exists sti. split; [done|].
    destruct (convert_groups_inv _ _ _ _ _ _ _ (loop_inv_initial toc_uuid rs) Hpre)
      as [(Hni & _) Hleni].
    apply convert_groups_history_prefix in Hpost as (ps & Hps & _).
    simpl in Hleni.
    assert (history sti = take i (history st')) as Heq.
    { destruct (decide (i ≤ length margin_groups)) as [Hle|Hgt].
      - rewrite Hps. rewrite length_take in Hleni.
        rewrite take_app_le, take_ge; [done|lia..].
      - rewrite take_ge in Hpre by lia. rewrite Hpre in Hrun. injection Hrun as ->.
        rewrite take_ge; [done|lia]. }
    split; [done|]. by rewrite <- Heq.
  - destruct (pdf_doc st') as [d|].
    + destruct Hd as [Hd _]. unfold PDFDoc.page_count. rewrite Hd, Hn.
      clear. induction (history st') as [|p ps IH]; simpl; [done|].
      rewrite length_app, Nat2Z.inj_add. fold (fmap (M:=list) (PDFDoc.pages ∘ contribution) ps).
      rewrite IH. done.
    + rewrite Hd in Hlen. by destruct margin_groups.
  - intros Hwf a loc Hl. destruct (Ha _ _ Hl) as (p & Hp & Hrec).
    specialize (Hwf p Hp). apply list_elem_of_lookup in Hp as [i Hi].
    destruct (Hh _ _ Hi) as [Hb Hg].
    assert (a ≠ toc_uuid) as Hne.
    { intros ->. apply recorded_lookup in Hg as [Hnone _]. by rewrite Hnone in Hrec. }
    destruct (Hpass _ _ Hi) as (_ & _ & Hshift).
    rewrite (Hshift a Hne) in Hrec.
    destruct (PDFDoc.anchors (rendered p) !! a) as [loc0|] eqn:Hloc0; [|done].
    injection Hrec as <-. simpl.
    apply get_anchor_locations_ok in Hg as (mloc & Hm & Hpos & _ & Hc).
    unfold content_before_marker, marker_page in Hwf. rewrite Hm in Hwf. simpl in Hwf.
    destruct Hwf as [Hmle Hall]. specialize (Hall a loc0 Hloc0 Hne).
    pose proof (total_pages_nonneg (take i (history st'))) as Hnn.
    assert (total_pages (take (S i) (history st')) ≤ total_pages (history st'))%Z
      as Hle by apply total_pages_take_le.
    rewrite (take_S_r _ _ _ Hi), total_pages_app in Hle. simpl in Hle.
    assert (PDFDoc.page_count (contribution p) = AnchorLocation.pagenum mloc - 1)%Z
      as Hcount.
    { rewrite Hc. unfold PDFDoc.page_count in *. simpl. rewrite length_take. lia. }
    rewrite Hn, Hb. lia.
Qed.


(** ** The driver on an empty spine *)

Lemma visit_section_spine acc item :
  spine_names (Uniquifier.visit_section acc item).2 = spine_names acc.2.
Proof.
  destruct acc as [st c]. unfold Uniquifier.visit_section.
  by destruct (foldl _ _ _) as [st' root'].
Qed.

Lemma assign_ids_spine c :
  spine_names (Uniquifier.assign_ids c).2 = spine_names c.
Proof.
  unfold Uniquifier.assign_ids.
  assert (∀ items acc,
    spine_names (foldl Uniquifier.visit_section acc items).2 = spine_names acc.2)
    as Hfold.
  { induction items as [|item items IH]; intros acc; [done|].
    simpl. by rewrite IH, visit_section_spine. }
  apply Hfold.
Qed.

Lemma rewrite_links_spine env mapping c :
  spine_names (Uniquifier.rewrite_links env mapping c) = spine_names c.
Proof.
  unfold Uniquifier.rewrite_links. generalize (mime_map c). intros names.
  revert c. induction names as [|name names IH]; intros c; [done|].
  simpl. by rewrite IH.
Qed.

Lemma make_anchors_unique_spine env c :
  spine_names (Uniquifier.make_anchors_unique env c) = spine_names c.
Proof.
  unfold Uniquifier.make_anchors_unique.
  destruct (Uniquifier.assign_ids c) as [st c1] eqn:Ha.
  rewrite rewrite_links_spine. by rewrite <- (assign_ids_spine c), Ha.
Qed.

Lemma create_margin_groups_empty env c :
  spine_names c = [] → Grouper.create_margin_groups env c = ([], c).
Proof.
  intros Hs. unfold Grouper.create_margin_groups, Grouper.create_margin_groups_state.
  by rewrite Hs.
Qed.

Lemma finish_none metadata output_path cover_data :
  ∃ e, finish None metadata output_path cover_data = Raise e ∧
       is_SystemExit e = false ∧
       (is_true_bytes cover_data = None → metadata = None →
        e = none_has_no "write").
Proof.
  unfold finish. destruct (is_true_bytes cover_data) as [data|]; simpl.
  - eexists. split; [done|]. split; [done|]. done.
  - destruct metadata as [mi|]; simpl.
    + unfold update_metadata. destruct (metadata_truthy mi); simpl;
        eexists; (split; [done|]); split; done.
    + eexists. split; [done|]. split; done.
Qed.

(** C10. When the spine is empty there are no margin groups: the loop of
    [convert] makes no pass and calls the renderer not once, the accumulated
    document is still None after it, writing that document fails, and
    [convert] ends with an exception that is not SystemExit (so none of the
    three failures of a render) instead of producing any output; when
    neither cover nor metadata is given, the exception is the one raised by
    the call of [write] on None. *)
Theorem convert_empty_spine env world c base metadata output_path cover_data :
  spine_names c = [] →
  (∃ c' st,
     convert_render env world c base = Ok (c', st) ∧
     pdf_doc st = None ∧ history st = [] ∧ calls (rstate st) = []) ∧
  pdf_write None = Raise (none_has_no "write") ∧
  ∃ e,
    convert env world c base metadata output_path cover_data = Raise e ∧
    is_SystemExit e = false ∧
    (is_true_bytes cover_data = None → metadata = None →
     e = none_has_no "write").
Proof.
  intros Hs.
  assert (∃ c', convert_render env world c base
                = Ok (c', initial_loop_state
                            (mkRenderState {[ base_layout_ref := base ]}
                               (Renderer.mk 0 None None [] "") 0 []))) as [c' Hr].
  { unfold convert_render.
    rewrite create_margin_groups_empty by (by rewrite make_anchors_unique_spine).
    simpl. by eexists. }
  split; [by eexists _, _|]. split; [done|].
  unfold convert. rewrite Hr. simpl.
  destruct (finish_none metadata output_path cover_data) as (e & -> & He).
  by exists e.
Qed.

(** ** The driver: the end of [convert] *)


(** ** Anchor uniquifier: links *)

Lemma has_hash_app href frag :
  Uniquifier.has_hash (href +:+ "#" +:+ frag) = true.
Proof.
  induction href as [|c href IH]; simpl; [done|].
  rewrite IH. apply orb_true_r.
Qed.

Lemma partition_hash_app href frag :
  Uniquifier.has_hash href = false →
  Uniquifier.partition_hash (href +:+ "#" +:+ frag) = (href, frag).
Proof.
  induction href as [|c href IH]; simpl; [done|].
  intros Hh. apply orb_false_iff in Hh as [Hc Hh].
  rewrite Hc, IH; done.
Qed.

Lemma partition_hash_spec url :
  Uniquifier.has_hash url = true →
  url = (Uniquifier.partition_hash url).1 +:+ "#" +:+ (Uniquifier.partition_hash url).2
  ∧ Uniquifier.has_hash (Uniquifier.partition_hash url).1 = false.
Proof.
  induction url as [|c url IH]; simpl; [done|].
  destruct (Ascii.eqb c "#") eqn:Hc; simpl.
  - intros _. apply Ascii.eqb_eq in Hc as ->. done.
  - intros Hh. destruct (IH Hh) as [Heq Hno].
    destruct (Uniquifier.partition_hash url) as [h f]; simpl in *.
    rewrite Hc. split; [exact (f_equal (String c) Heq)|done].
Qed.

Lemma startswith_hash_app href frag :
  href ≠ "" → Uniquifier.has_hash href = false →
  Uniquifier.startswith_hash (href +:+ "#" +:+ frag) = false.
Proof.
  destruct href as [|c href]; [done|]. simpl.
  intros _ Hh. by apply orb_false_iff in Hh as [Hc _].
Qed.

(** What [replacer] does to a link found in the section [base]: an
    empty URL and a URL without [#] come back unchanged; for [#frag] the href
    to resolve is the name of the link's own section, and the URL keeps no
    prefix; for [href#frag] the part before the first [#] is resolved with
    the resolver of the container; in both cases, when the resolver finds no
    name, or the pair of name and fragment has no new identifier, the URL
    comes back unchanged and nothing is flagged, and otherwise the fragment
    is replaced by the new identifier.  In particular, where the resolver
    takes the name of a section to that section, [#frag] is looked up in the
    link's own section.  Every URL falls under one of these cases. *)
Lemma replacer_cases env mapping base url :
  (url = "" → Uniquifier.replacer env mapping base url = (url, false)) ∧
  (Uniquifier.has_hash url = false →
   Uniquifier.replacer env mapping base url = (url, false)) ∧
  (∀ frag, url = "#" +:+ frag →
     Uniquifier.replacer env mapping base url
     = retarget mapping url (href_to_name env base base) "" frag) ∧
  (∀ frag, url = "#" +:+ frag →
     href_to_name env base base = Some base → base ≠ "" →
     Uniquifier.replacer env mapping base url
     = match mapping !! (base, Some frag) with
       | Some new_frag => ("#" +:+ new_frag, true)
       | None => (url, false)
       end) ∧
  (∀ href frag, url = href +:+ "#" +:+ frag →
     href ≠ "" → Uniquifier.has_hash href = false →
     Uniquifier.replacer env mapping base url
     = retarget mapping url (href_to_name env href base) href frag) ∧
  (url = "" ∨ Uniquifier.has_hash url = false ∨
   ∃ href frag, url = href +:+ "#" +:+ frag ∧ Uniquifier.has_hash href = false).
Proof.
  assert (∀ frag, url = "#" +:+ frag →
     Uniquifier.replacer env mapping base url
     = retarget mapping url (href_to_name env base base) "" frag) as Hown.
  { intros frag ->. unfold Uniquifier.replacer, retarget. simpl.
    destruct (href_to_name env base base) as [name|]; [|done].
    case_bool_decide; [done|]. change ("" +:+ frag) with frag.
    by destruct (mapping !! (name, Some frag)). }
  split; [|split; [|split; [|split; [|split]]]].
  - intros ->. done.
  - intros Hh. unfold Uniquifier.replacer. rewrite Hh. simpl. by case_bool_decide.
  - done.
  - intros frag Hurl Hres Hbase. rewrite (Hown frag Hurl), Hres. unfold retarget.
    rewrite bool_decide_false by done.
    by destruct (mapping !! (base, Some frag)).
  - intros href frag -> Hne Hh. unfold Uniquifier.replacer, retarget.
    rewrite bool_decide_false by (by destruct href).
    rewrite has_hash_app, startswith_hash_app, partition_hash_app by done. simpl.
    destruct (href_to_name env href base) as [name|]; [|done].
    case_bool_decide; [done|]. by destruct (mapping !! (name, Some frag)).
  - destruct (Uniquifier.has_hash url) eqn:Hh; [|by right; left].
    right; right. destruct (partition_hash_spec url Hh) as [Heq Hno].
    by eexists _, _.
Qed.

(** C4. A link [#frag] found in the section [base] is not looked up under
    [base]: line 239 hands the name of the section to the resolver of the
    container as an href relative to [base], and the fragment is looked up
    under the name the resolver returns.  When that name is another one,
    under which the fragment has no new identifier, the link comes back
    unchanged and nothing is flagged, although the element it points to in
    its own section has a new identifier; resolved against its own section
    the link would have been rewritten to that identifier. *)
Theorem replacer_own_section_missed env mapping base frag name new_frag :
  href_to_name env base base = Some name →
  mapping !! (base, Some frag) = Some new_frag →
  mapping !! (name, Some frag) = None →
  base ≠ "" →
  Uniquifier.replacer env mapping base ("#" +:+ frag) = ("#" +:+ frag, false) ∧
  retarget mapping ("#" +:+ frag) (Some base) "" frag = ("#" +:+ new_frag, true).
Proof.
  intros Hres Hown Hmiss Hbase. split.
  - destruct (replacer_cases env mapping base ("#" +:+ frag))
      as (_ & _ & Hfrag & _).
    rewrite (Hfrag frag eq_refl), Hres. unfold retarget.
    case_bool_decide; [done|]. by rewrite Hmiss.
  - unfold retarget. rewrite bool_decide_false by done. by rewrite Hown.
Qed.


(** ** Margin grouper *)

Lemma uniform_snoc cur a s :
  uniform cur → list.last cur = Some a → a.2 = s.2 → uniform (cur ++ [s]).
Proof.
  intros Hu Hl Heq x y Hx Hy.
  assert (a ∈ cur) as Ha.
  { apply last_Some in Hl as [l' ->]. apply elem_of_app. right. left. }
  apply elem_of_app in Hx as [Hx|Hx%list_elem_of_singleton];
    apply elem_of_app in Hy as [Hy|Hy%list_elem_of_singleton]; subst.
  - by apply Hu.
  - rewrite <- Heq. by apply Hu.
  - rewrite <- Heq. by apply Hu.
  - done.
Qed.

Lemma uniform_singleton s : uniform [s].
Proof. intros x y Hx%list_elem_of_singleton Hy%list_elem_of_singleton. by subst. Qed.

Lemma maximal_cons run runs :
  maximal runs →
  (∀ r2 a b, head runs = Some r2 → list.last run = Some a → head r2 = Some b →
     a.2 ≠ b.2) →
  maximal (run :: runs).
Proof.
  intros Hm Hfirst i r1 r2 a b H1 H2 Ha Hb. destruct i as [|i].
  - injection H1 as <-. apply (Hfirst r2 a b); [|done..].
    destruct runs; [done|]. simpl in *. congruence.
  - exact (Hm i r1 r2 a b H1 H2 Ha Hb).
Qed.

(** The runs produced from an open run [cur]: what was read is kept in
    order, every run is non-empty and uniform, consecutive runs differ where
    they meet, and the first run begins as [cur] does. *)
Lemma split_runs_spec secs : ∀ cur runs fin,
  cur ≠ [] → uniform cur →
  split_runs cur secs = (runs, fin) →
  concat (runs ++ [fin]) = cur ++ secs ∧
  Forall (λ run, run ≠ [] ∧ uniform run) (runs ++ [fin]) ∧
  maximal (runs ++ [fin]) ∧
  (∃ r, head (runs ++ [fin]) = Some r ∧ head r = head cur).
Proof.
  induction secs as [|s secs IH]; intros cur runs fin Hne Hu; simpl.
  - intros [= <- <-]. simpl. rewrite !app_nil_r. split; [|split; [|split]]; [done|..].
    + by apply Forall_singleton.
    + intros [|i] r1 r2 a b H1 H2; simplify_eq/=.
    + by exists cur.
  - destruct (list.last cur) as [[n prev]|] eqn:Hl;
      [|by apply last_None in Hl].
    case_bool_decide as Hd.
    + destruct (split_runs [s] secs) as [runs' fin'] eqn:Hs.
      intros [= <- <-].
      destruct (IH [s] runs' fin') as (Hc & Hf & Hm & r & Hr & Hhd);
        [done|apply uniform_singleton|done|].
      simpl. split; [|split; [|split]].
      * rewrite Hc. done.
      * apply Forall_cons_2; done.
      * apply maximal_cons; [done|]. intros r2 a b Hr2 Ha Hb.
        rewrite Hr in Hr2. simplify_eq. rewrite Hhd in Hb. by simplify_eq/=.
      * by exists cur.
    + intros Hs.
      destruct (IH (cur ++ [s]) runs fin) as (Hc & Hf & Hm & r & Hr & Hhd).
      * by destruct cur.
      * eapply uniform_snoc; [done..|]. by simpl.
      * done.
      * split; [|split; [|split]]; [by rewrite Hc, <- app_assoc|done..|].
        exists r. split; [done|]. rewrite Hhd. by destruct cur.
Qed.

Lemma all_runs_partition secs : run_partition secs (all_runs secs).
Proof.
  unfold all_runs. destruct secs as [|s secs]; simpl.
  - repeat split; [by apply Forall_nil|]. intros i r1 r2 a b H1. done.
  - destruct (split_runs [s] secs) as [runs fin] eqn:Hs.
    destruct (split_runs_spec secs [s] runs fin) as (Hc & Hf & Hm & _);
      [done|apply uniform_singleton|done|].
    assert (fin ≠ []) as Hfin.
    { apply Forall_app in Hf as [_ Hf]. by apply Forall_singleton in Hf as [? _]. }
    destruct fin as [|x fin]; [done|]. done.
Qed.

Lemma merge_group_spec env c log g :
  Grouper.merge_group env c log g
  = (match merge_call g with
     | Some (names, master) => merge_html env c names master
     | None => c
     end,
     log ++ option_list (merge_call g), merged g).
Proof.
  unfold Grouper.merge_group.
  destruct g as [|[n m] [|x g]]; cbn [merge_call merged option_list];
    [by rewrite app_nil_r..|].
  rewrite bool_decide_true; [done|]. cbn [length]. lia.
Qed.

Lemma read_margins_ext env r1 r2 :
  elem_get Grouper.margins_attr r1 = elem_get Grouper.margins_attr r2 →
  Grouper.read_margins env r1 = Grouper.read_margins env r2.
Proof. unfold Grouper.read_margins. by intros ->. Qed.

Lemma read_margins_none env root :
  Grouper.read_margins env root = PyNone
  ↔ elem_get Grouper.margins_attr root = None.
Proof.
  unfold Grouper.read_margins.
  destruct (elem_get Grouper.margins_attr root) as [s|]; [|done].
  split; [|done]. by destruct (truthy (PyStr s)).
Qed.

Lemma merged_container_margins env c g name :
  merge_html_keeps_margins env → name ∉ g.*1 →
  elem_get Grouper.margins_attr
    (parsed (match merge_call g with
             | Some (names, master) => merge_html env c names master
             | None => c
             end) name)
  = elem_get Grouper.margins_attr (parsed c name).
Proof.
  intros Hk Hn. destruct g as [|[n m] [|x g]]; simpl; [done..|].
  by apply Hk.
Qed.

Lemma visit_section_eq env st item :
  Grouper.visit_section env st item
  = let cur := Grouper.current_group st in
    let s := (item.1, Grouper.read_margins env (parsed (Grouper.container st) item.1)) in
    match list.last cur with
    | Some (_, prev_margins) =>
        if bool_decide (prev_margins ≠ s.2) then
          Grouper.mkState
            (match merge_call cur with
             | Some (names, master) => merge_html env (Grouper.container st) names master
             | None => Grouper.container st
             end)
            (Grouper.merges st ++ option_list (merge_call cur))
            (Grouper.groups st ++ [merged cur]) [s]
        else Grouper.mkState (Grouper.container st) (Grouper.merges st)
               (Grouper.groups st) (cur ++ [s])
    | None => Grouper.mkState (Grouper.container st) (Grouper.merges st)
                (Grouper.groups st) (cur ++ [s])
    end.
Proof.
  unfold Grouper.visit_section. cbn zeta.
  destruct (list.last (Grouper.current_group st)) as [[n prev]|]; [|done].
  cbn [snd]. case_bool_decide; [|done]. by rewrite merge_group_spec.
Qed.

(** The loop of [create_margin_groups] closes the runs that [split_runs]
    closes, provided the margins it reads are those of the sections. *)
Lemma visit_sections_runs env c : ∀ rest st,
  merge_html_keeps_margins env →
  NoDup rest.*1 →
  (∀ item, item ∈ rest → item.1 ∉ (Grouper.current_group st).*1) →
  (∀ item, item ∈ rest →
     elem_get Grouper.margins_attr (parsed (Grouper.container st) item.1)
     = elem_get Grouper.margins_attr (parsed c item.1)) →
  ∀ runs fin,
    split_runs (Grouper.current_group st)
      ((λ item : string * bool,
          (item.1, Grouper.read_margins env (parsed c item.1))) <$> rest)
    = (runs, fin) →
    Grouper.groups (foldl (Grouper.visit_section env) st rest)
    = Grouper.groups st ++ (merged <$> runs) ∧
    Grouper.current_group (foldl (Grouper.visit_section env) st rest) = fin ∧
    Grouper.merges (foldl (Grouper.visit_section env) st rest)
    = Grouper.merges st ++ omap merge_call runs.
Proof.
  induction rest as [|item rest IH]; intros st Hk Hnd Hfresh Hm runs fin.
  - intros [= <- <-]. simpl. by rewrite !app_nil_r.
  - rewrite fmap_cons in Hnd. apply list.NoDup_cons in Hnd as [Hitem Hnd].
    assert (Grouper.read_margins env (parsed (Grouper.container st) item.1)
            = Grouper.read_margins env (parsed c item.1)) as Hread.
    { apply read_margins_ext, Hm. left. }
    assert (∀ it, it ∈ rest → it.1 ≠ item.1) as Hother.
    { intros it Hit Heq. apply Hitem. rewrite <- Heq.
      by apply (list_elem_of_fmap_2 fst). }
    cbn [foldl fmap list_fmap split_runs]. rewrite visit_section_eq. cbn zeta.
    rewrite Hread.
    destruct (list.last (Grouper.current_group st)) as [[n prev]|] eqn:Hl.
    + cbn [snd]. case_bool_decide as Hd.
      * destruct (split_runs _ _) as [runs' fin'] eqn:Hs. intros [= <- <-].
        lazymatch goal with |- context [foldl _ ?s rest] =>
          destruct (IH s Hk Hnd) with (runs := runs') (fin := fin')
            as (Hg & Hc & Hlog) end.
        -- intros it Hit Hin. apply list_elem_of_singleton in Hin.
           by apply (Hother it).
        -- intros it Hit. cbn [Grouper.container].
           rewrite merged_container_margins; [|done|].
           ++ apply Hm. by right.
           ++ apply Hfresh. by right.
        -- exact Hs.
        -- rewrite Hg, Hc, Hlog. cbn [Grouper.groups Grouper.merges].
           rewrite <- !app_assoc. cbn [fmap list_fmap omap list_omap].
           split; [done|]. split; [done|].
           by destruct (merge_call (Grouper.current_group st)).
      * intros Hs.
        lazymatch goal with |- context [foldl _ ?s rest] =>
          destruct (IH s Hk Hnd) with (runs := runs) (fin := fin)
            as (Hg & Hc & Hlog) end; [| |exact Hs|done].
        -- intros it Hit Hin. cbn [Grouper.current_group] in Hin.
           rewrite fmap_app in Hin.
           apply elem_of_app in Hin as [Hin|Hin%list_elem_of_singleton].
           ++ by apply (Hfresh it); [right|].
           ++ by apply (Hother it).
        -- intros it Hit. apply Hm. by right.
    + intros Hs.
      lazymatch goal with |- context [foldl _ ?s rest] =>
        destruct (IH s Hk Hnd) with (runs := runs) (fin := fin)
          as (Hg & Hc & Hlog) end; [| |exact Hs|done].
      * intros it Hit Hin. cbn [Grouper.current_group] in Hin.
        rewrite fmap_app in Hin.
        apply elem_of_app in Hin as [Hin|Hin%list_elem_of_singleton].
        -- by apply (Hfresh it); [right|].
        -- by apply (Hother it).
      * intros it Hit. apply Hm. by right.
Qed.

Lemma create_margin_groups_all_runs env c :
  NoDup (spine_names c).*1 → merge_html_keeps_margins env →
  Grouper.groups (Grouper.create_margin_groups_state env c)
  = merged <$> all_runs (sections env c) ∧
  Grouper.merges (Grouper.create_margin_groups_state env c)
  = omap merge_call (all_runs (sections env c)).
Proof.
  intros Hnd Hk. unfold Grouper.create_margin_groups_state, all_runs, sections.
  destruct (split_runs [] _) as [runs fin] eqn:Hs.
  edestruct (visit_sections_runs env c (spine_names c) (Grouper.mkState c [] [] []))
    as (Hg & Hc & Hlog); [done|done| | |exact Hs|]; simpl.
  - intros it _ Hin. by apply elem_of_nil in Hin.
  - done.
  - simpl in *. rewrite Hc. destruct fin as [|x fin].
    + by rewrite Hg, Hlog.
    + rewrite merge_group_spec. simpl. rewrite Hg, Hlog.
      rewrite fmap_app, omap_app. simpl.
      split; [done|]. by destruct (merge_call (x :: fin)).
Qed.

(** C3. When the names of the spine are pairwise different (and merging some
    files leaves the margins attribute of the other files alone), the groups
    returned by [create_margin_groups] come from cutting the sequence of
    sections, in its order and without losing or repeating a section, into
    runs of equal margins that cannot be extended; margins read as None come
    from a missing attribute only, so a section without the attribute shares
    a run only with sections without it.  A run of two or more sections is
    merged by one call of [merge_html] into its first member and is returned
    as the single section with the name and margins of that member; a run of
    one section is returned as it is and nothing is merged for it. *)
Theorem create_margin_groups_partition env c :
  NoDup (spine_names c).*1 →
  merge_html_keeps_margins env →
  ∃ runs,
    run_partition (sections env c) runs ∧
    (Grouper.create_margin_groups env c).1 = merged <$> runs ∧
    Grouper.merges (Grouper.create_margin_groups_state env c)
    = omap merge_call runs ∧
    (∀ run, run ∈ runs → 2 ≤ length run →
       ∃ name margins,
         head run = Some (name, margins) ∧
         merged run = [(name, margins)] ∧
         merge_call run = Some (run.*1, name)) ∧
    (∀ run, run ∈ runs → length run < 2 →
       merged run = run ∧ merge_call run = None) ∧
    (∀ root, Grouper.read_margins env root = PyNone
             ↔ elem_get Grouper.margins_attr root = None).
Proof.
  intros Hnd Hk. exists (all_runs (sections env c)).
  destruct (create_margin_groups_all_runs env c Hnd Hk) as [Hg Hlog].
  split; [apply all_runs_partition|]. split; [done|]. split; [done|].
  split; [|split].
  - intros run _ Hlen. destruct run as [|[name margins] [|x run]];
      [simpl in Hlen; lia..|]. by exists name, margins.
  - intros run _ Hlen. destruct run as [|[name margins] [|x run]];
      [done..|simpl in Hlen; lia].
  - apply read_margins_none.
Qed.




(** ** ToC marker injector *)

Lemma collect_lookup m item name f :
  f ∈ default ∅ (TocMarker.collect m item !! name)
  ↔ f ∈ default ∅ (m !! name)
    ∨ (TocMarker.nonempty (dest item) = Some name ∧
       TocMarker.nonempty (frag item) = Some f).
Proof.
  unfold TocMarker.collect.
  destruct (TocMarker.nonempty (dest item)) as [d|];
    [|split; [by left|by intros [?|[? ?]]]].
  destruct (TocMarker.nonempty (frag item)) as [g|];
    [|split; [by left|by intros [?|[? ?]]]].
  destruct (decide (d = name)) as [->|Hne].
  - rewrite lookup_insert_eq. simpl. rewrite elem_of_union, elem_of_singleton.
    split; [intros [->|?]; [by right|by left]|].
    intros [?|[_ [= ->]]]; [by right|by left].
  - rewrite lookup_insert_ne by done. split; [by left|].
    intros [?|[[= ?] _]]; done.
Qed.

Lemma build_name_anchor_map_reachable toc name f :
  f ∈ marker_anchors toc name ↔ reachable toc name f.
Proof.
  unfold marker_anchors, reachable, TocMarker.build_name_anchor_map.
  rewrite elem_of_elements.
  assert (∀ items m0,
    f ∈ default ∅ (foldl TocMarker.collect m0 items !! name)
    ↔ f ∈ default ∅ (m0 !! name)
      ∨ ∃ item, item ∈ items ∧ TocMarker.nonempty (dest item) = Some name ∧
                TocMarker.nonempty (frag item) = Some f) as Hfold.
  { induction items as [|item items IH]; intros m0; simpl.
    - split; [by left|]. intros [?|(item & Hin & _)]; [done|].
      by apply elem_of_nil in Hin.
    - rewrite IH, collect_lookup. split.
      + intros [[?|[? ?]]|(it & Hin & ?)]; [by left| |].
        * right. exists item. split; [left|done].
        * right. exists it. split; [by right|done].
      + intros [?|(it & Hin & ?)]; [by left; left|].
        apply elem_of_cons in Hin as [->|Hin]; [by left; right|].
        right. by exists it. }
  rewrite Hfold, lookup_empty. simpl. split; [|by right].
  intros [Hin|?]; [|done]. by apply elem_of_empty in Hin.
Qed.

Lemma last_insert_last {A} (l : list A) x :
  l ≠ [] → list.last (<[pred (length l) := x]> l) = Some x.
Proof.
  intros Hne. rewrite last_lookup, length_insert.
  apply list_lookup_insert_eq. destruct l; [done|simpl; lia].
Qed.

Lemma add_anchors_markup_ok root uuid anchors root' :
  TocMarker.add_anchors_markup root uuid anchors = Ok root' →
  ∃ body,
    list.last (children root) = Some body ∧
    root' = with_children root
              (<[pred (length (children root)) :=
                   with_children body
                     (children body ++ [TocMarker.marker_div uuid anchors])]>
                 (children root)) ∧
    ends_with_marker root' (TocMarker.marker_div uuid anchors).
Proof.
  unfold TocMarker.add_anchors_markup.
  destruct (list.last (children root)) as [body|] eqn:Hl; [|done].
  intros [= <-]. exists body. split; [done|]. split; [done|].
  eexists. split.
  - simpl. apply last_insert_last. intros Hnil. by rewrite Hnil in Hl.
  - simpl. by rewrite last_snoc.
Qed.

Lemma add_anchors_markup_total root uuid anchors :
  children root ≠ [] →
  ∃ root', TocMarker.add_anchors_markup root uuid anchors = Ok root'.
Proof.
  intros Hne. unfold TocMarker.add_anchors_markup.
  destruct (list.last (children root)) as [body|] eqn:Hl; [by eexists|].
  by apply last_None in Hl.
Qed.

Lemma mark_group_ok uuid m c group c' :
  TocMarker.mark_group uuid m c group = Ok c' →
  ∃ name margins rest root',
    group = (name, margins) :: rest ∧
    TocMarker.add_anchors_markup (parsed c name) uuid
      (elements (default ∅ (m !! name))) = Ok root' ∧
    c' = dirty (set_parsed c name root') name.
Proof.
  unfold TocMarker.mark_group. destruct group as [|[name margins] rest]; [done|].
  destruct (TocMarker.add_anchors_markup _ _ _) as [root'| |] eqn:Ha; simpl; [|done..].
  intros [= <-]. by eexists _, _, _, _.
Qed.

(** Marking a group keeps the markers already in place. *)
Lemma mark_group_keeps uuid m c group c' n :
  TocMarker.mark_group uuid m c group = Ok c' →
  ends_with_marker (parsed c n)
    (TocMarker.marker_div uuid (elements (default ∅ (m !! n)))) →
  ends_with_marker (parsed c' n)
    (TocMarker.marker_div uuid (elements (default ∅ (m !! n)))).
Proof.
  intros Hg Hend.
  apply mark_group_ok in Hg as (name & margins & rest & root' & -> & Ha & ->).
  simpl. destruct (decide (name = n)) as [->|Hne].
  - rewrite fn_lookup_insert. by apply add_anchors_markup_ok in Ha as (_ & _ & _ & ?).
  - by rewrite fn_lookup_insert_ne.
Qed.

Lemma mark_groups_keeps uuid m groups : ∀ c c' n,
  TocMarker.mark_groups uuid m c groups = Ok c' →
  (ends_with_marker (parsed c n)
     (TocMarker.marker_div uuid (elements (default ∅ (m !! n)))) →
   ends_with_marker (parsed c' n)
     (TocMarker.marker_div uuid (elements (default ∅ (m !! n))))) ∧
  (n ∈ dirtied c → n ∈ dirtied c') ∧
  (n ∉ representatives groups → parsed c' n = parsed c n).
Proof.
  induction groups as [|group rest IH]; intros c c' n; simpl.
  - by intros [= <-].
  - destruct (TocMarker.mark_group uuid m c group) as [c1| |] eqn:Hg; simpl; [|done..].
    intros Hrest. destruct (IH _ _ n Hrest) as (Hkeep & Hdirty & Hother).
    split; [|split].
    + intros Hend. apply Hkeep. by eapply mark_group_keeps.
    + intros Hd. apply Hdirty.
      apply mark_group_ok in Hg as (name & margins & tl & root' & -> & Ha & ->).
      simpl. apply elem_of_union. by right.
    + intros Hn. apply mark_group_ok in Hg as (name & margins & tl & root' & -> & Ha & ->).
      unfold representatives in Hn. simpl in Hn.
      apply not_elem_of_cons in Hn as [Hne Hn].
      rewrite (Hother Hn). simpl. by rewrite fn_lookup_insert_ne.
Qed.

Lemma marker_div_hrefs uuid anchors :
  hrefs (TocMarker.marker_div uuid anchors)
  = ((λ a, Some ("#" +:+ a)) <$> anchors) ++ [Some ("#" +:+ uuid)].
Proof.
  unfold hrefs, TocMarker.marker_div. simpl. rewrite fmap_app. f_equal.
  rewrite fmap_imap. rewrite <- (imap_const (λ a, Some ("#" +:+ a))).
  apply imap_ext. intros i a _. simpl. unfold elem_get. simpl.
  by rewrite lookup_singleton_eq.
Qed.

Lemma mark_groups_marked uuid m groups : ∀ c c',
  TocMarker.mark_groups uuid m c groups = Ok c' →
  ∀ name, name ∈ representatives groups →
    ends_with_marker (parsed c' name)
      (TocMarker.marker_div uuid (elements (default ∅ (m !! name)))) ∧
    name ∈ dirtied c'.
Proof.
  induction groups as [|group rest IH]; intros c c'; simpl.
  - intros _ name Hin. by apply elem_of_nil in Hin.
  - destruct (TocMarker.mark_group uuid m c group) as [c1| |] eqn:Hg; simpl; [|done..].
    intros Hrest name Hin.
    pose proof Hg as Hg'.
    apply mark_group_ok in Hg' as (n0 & margins & tl & root' & -> & Ha & ->).
    unfold representatives in Hin. simpl in Hin.
    destruct (decide (name ∈ representatives rest)) as [Hr|Hr]; [by eapply IH|].
    apply elem_of_cons in Hin as [->|Hin]; [|done].
    destruct (mark_groups_keeps _ _ _ _ _ n0 Hrest) as (Hkeep & Hdirty & _).
    split.
    + apply Hkeep. simpl. rewrite fn_lookup_insert.
      by apply add_anchors_markup_ok in Ha as (_ & _ & _ & ?).
    + apply Hdirty. simpl. apply elem_of_union. left. by apply elem_of_singleton.
Qed.

Lemma mark_groups_exact uuid m groups : ∀ c c',
  TocMarker.mark_groups uuid m c groups = Ok c' →
  NoDup (representatives groups) →
  ∀ name, name ∈ representatives groups →
    TocMarker.add_anchors_markup (parsed c name) uuid
      (elements (default ∅ (m !! name))) = Ok (parsed c' name).
Proof.
  induction groups as [|group rest IH]; intros c c'; simpl.
  - intros _ _ name Hin. by apply elem_of_nil in Hin.
  - destruct (TocMarker.mark_group uuid m c group) as [c1| |] eqn:Hg; simpl; [|done..].
    intros Hrest Hnd name Hin.
    apply mark_group_ok in Hg as (n0 & margins & tl & root' & -> & Ha & ->).
    unfold representatives in Hin, Hnd. simpl in Hin, Hnd.
    apply list.NoDup_cons in Hnd as [Hn0 Hnd].
    apply elem_of_cons in Hin as [->|Hin].
    + destruct (mark_groups_keeps _ _ _ _ _ n0 Hrest) as (_ & _ & Hother).
      rewrite (Hother Hn0). simpl. by rewrite fn_lookup_insert.
    + rewrite <- (IH _ _ Hrest Hnd name Hin). simpl.
      rewrite fn_lookup_insert_ne; [done|]. by intros ->.
Qed.

Lemma mark_groups_total uuid m groups : ∀ c,
  Forall (λ group, group ≠ []) groups →
  (∀ name, name ∈ representatives groups → children (parsed c name) ≠ []) →
  ∃ c', TocMarker.mark_groups uuid m c groups = Ok c'.
Proof.
  induction groups as [|group rest IH]; intros c Hne Hbody; simpl; [by eexists|].
  apply Forall_cons_1 in Hne as [Hg Hne].
  destruct group as [|[n0 margins] tl]; [done|].
  destruct (add_anchors_markup_total (parsed c n0) uuid
              (elements (default ∅ (m !! n0)))) as [root' Ha].
  { apply Hbody. unfold representatives. simpl. left. }
  unfold TocMarker.mark_group. rewrite Ha. simpl. apply IH; [done|].
  intros name Hin. simpl. destruct (decide (n0 = name)) as [->|Hneq].
  - rewrite fn_lookup_insert.
    apply add_anchors_markup_ok in Ha as (body & Hl & -> & _). simpl.
    intros Hnil. apply (f_equal length) in Hnil. rewrite length_insert in Hnil.
    apply last_Some in Hl as [l' Hl]. rewrite Hl, length_app in Hnil. simpl in Hnil. lia.
  - rewrite fn_lookup_insert_ne by done. apply Hbody.
    unfold representatives. simpl. by right.
Qed.

(** C7. [add_toc_links] returns the one identifier it generated.  After it,
    the body of the file every group is addressed by ends with the marker
    element for that file, and the file is marked dirty; the files of no
    group are as before; when no two groups share their file, each file is
    exactly its old tree with the marker appended to the body.  The marker is
    a [div] whose [id] is that identifier and whose style forces a page break
    before it; its children are one link to [#fragment] for each fragment the
    table of contents reaches in the file, each once and in the order in
    which the set is enumerated, followed by one link to [#identifier].  The
    call returns when every group has a member and every such file has a
    body. *)
Theorem add_toc_links_markers env c toc margin_groups :
  (∀ ret c',
     TocMarker.add_toc_links env c toc margin_groups = Ok (ret, c') →
     ret = uuid4 env ∧
     (∀ name, name ∈ representatives margin_groups →
        ends_with_marker (parsed c' name)
          (TocMarker.marker_div (uuid4 env) (marker_anchors toc name)) ∧
        name ∈ dirtied c') ∧
     (∀ name, name ∉ representatives margin_groups →
        parsed c' name = parsed c name) ∧
     (NoDup (representatives margin_groups) →
      ∀ name, name ∈ representatives margin_groups →
        TocMarker.add_anchors_markup (parsed c name) (uuid4 env)
          (marker_anchors toc name) = Ok (parsed c' name))) ∧
  (∀ uuid name,
     tag (TocMarker.marker_div uuid (marker_anchors toc name))
     = TocMarker.XHTML "div" ∧
     elem_get "id" (TocMarker.marker_div uuid (marker_anchors toc name))
     = Some uuid ∧
     elem_get "style" (TocMarker.marker_div uuid (marker_anchors toc name))
     = Some "page-break-before: always" ∧
     hrefs (TocMarker.marker_div uuid (marker_anchors toc name))
     = ((λ a, Some ("#" +:+ a)) <$> marker_anchors toc name)
       ++ [Some ("#" +:+ uuid)] ∧
     NoDup (marker_anchors toc name) ∧
     (∀ f, f ∈ marker_anchors toc name ↔ reachable toc name f)) ∧
  (Forall (λ group, group ≠ []) margin_groups →
   (∀ name, name ∈ representatives margin_groups →
      children (parsed c name) ≠ []) →
   ∃ c', TocMarker.add_toc_links env c toc margin_groups = Ok (uuid4 env, c')).
Proof.
  split; [|split].
  - intros ret c'. unfold TocMarker.add_toc_links.
    destruct (TocMarker.mark_groups _ _ _ _) as [c1| |] eqn:Hm; simpl; [|done..].
    intros [= <- <-]. split; [done|]. split; [|split].
    + intros name Hin. by apply (mark_groups_marked _ _ _ _ _ Hm).
    + intros name Hin. by apply (mark_groups_keeps _ _ _ _ _ name Hm).
    + intros Hnd name Hin. by apply (mark_groups_exact _ _ _ _ _ Hm).
  - intros uuid name. split; [done|]. split.
    { unfold elem_get. simpl. by rewrite lookup_insert_eq. }
    split.
    { unfold elem_get. simpl. rewrite lookup_insert_ne by done.
      by rewrite lookup_singleton_eq. }
    split; [apply marker_div_hrefs|]. split; [apply NoDup_elements|].
    intros f. apply build_name_anchor_map_reachable.
  - intros Hne Hbody. unfold TocMarker.add_toc_links.
    destruct (mark_groups_total (uuid4 env) (TocMarker.build_name_anchor_map toc)
                margin_groups c Hne Hbody) as [c' ->].
    by eexists.
Qed.

(** ** Anchor uniquifier: identifiers *)

(** *** Element trees *)

Lemma xpath_id_unfold e :
  xpath_id e
  = (if elem_get "id" e is Some _ then [[]] else [])
    ++ xpath_id_children 0 (children e).
Proof. by destruct e. Qed.

Lemma xpath_id_children_cons i c cs :
  xpath_id_children i (c :: cs)
  = (cons i <$> xpath_id c) ++ xpath_id_children (S i) cs.
Proof. done. Qed.

Lemma elem_of_xpath_id_children q cs : ∀ i,
  q ∈ xpath_id_children i cs
  ↔ ∃ k c p, cs !! k = Some c ∧ p ∈ xpath_id c ∧ q = (i + k) :: p.
Proof.
  induction cs as [|c cs IH]; intros i.
  - simpl. split; [by intros ?%elem_of_nil|by intros (k & ? & ? & ? & _)].
  - rewrite xpath_id_children_cons, elem_of_app, list_elem_of_fmap, IH. split.
    + intros [(p & -> & Hp)|(k & c' & p & Hk & Hp & ->)].
      * exists 0, c, p. split; [done|]. split; [done|]. f_equal. lia.
      * exists (S k), c', p. split; [done|]. split; [done|]. f_equal. lia.
    + intros ([|k] & c' & p & Hk & Hp & ->); simpl in Hk.
      * left. exists p. simplify_eq. split; [f_equal; lia|done].
      * right. exists k, c', p. split; [done|]. split; [done|]. f_equal. lia.
Qed.

Lemma NoDup_xpath_id_children cs : ∀ i,
  Forall (λ c, NoDup (xpath_id c)) cs → NoDup (xpath_id_children i cs).
Proof.
  induction cs as [|c cs IH]; intros i Hall; [constructor|].
  apply Forall_cons_1 in Hall as [Hc Hall].
  rewrite xpath_id_children_cons. apply list.NoDup_app. split; [|split].
  - apply NoDup_fmap_2; [|done]. by intros ?? [=].
  - intros q (p & -> & Hp)%list_elem_of_fmap Hq.
    apply elem_of_xpath_id_children in Hq as (k & c' & p' & _ & _ & [= Hi _]). lia.
  - by apply IH.
Qed.

Lemma NoDup_xpath_id e : NoDup (xpath_id e).
Proof.
  induction e as [tag attrib text tail children IH] using Elem_ind'.
  rewrite xpath_id_unfold. apply list.NoDup_app. split; [|split].
  - destruct (elem_get "id" _); [apply NoDup_singleton|constructor].
  - intros q Hq Hq'. apply elem_of_xpath_id_children in Hq' as (k & c & p & _ & _ & ->).
    destruct (elem_get "id" _); [by apply list_elem_of_singleton in Hq|].
    by apply elem_of_nil in Hq.
  - by apply NoDup_xpath_id_children.
Qed.

(** Every path returned by the query leads to an element with an [id]. *)
Lemma xpath_id_valid e : ∀ p, p ∈ xpath_id e → is_Some (get_id e p).
Proof.
  induction e as [tag attrib text tail children IH] using Elem_ind'.
  intros p. rewrite xpath_id_unfold, elem_of_app. intros [Hp|Hp].
  - unfold get_id. destruct (elem_get "id" _) as [i|] eqn:Hid.
    + apply list_elem_of_singleton in Hp as ->. simpl. by rewrite Hid.
    + by apply elem_of_nil in Hp.
  - apply elem_of_xpath_id_children in Hp as (k & c & q & Hk & Hq & ->).
    unfold get_id. simpl in *. rewrite Hk. simpl.
    rewrite list.Forall_forall in IH. apply (IH c); [|done].
    by apply list_elem_of_lookup_2 in Hk.
Qed.

Lemma get_id_update_same p v : ∀ root,
  is_Some (get_elem p root) →
  get_id (update_elem p (elem_set "id" v) root) p = Some v.
Proof.
  unfold get_id. induction p as [|i p IH]; intros root Hp; simpl.
  - unfold elem_get. simpl. apply lookup_insert_eq.
  - simpl in Hp. rewrite list_lookup_alter_eq.
    destruct (children root !! i) as [c|]; simpl in *; [by apply IH|].
    by destruct Hp.
Qed.

Lemma get_id_update_other p v : ∀ q root,
  q ≠ p →
  get_id (update_elem p (elem_set "id" v) root) q = get_id root q.
Proof.
  unfold get_id. induction p as [|j p IH]; intros q root Hne.
  - destruct q as [|i q]; done.
  - destruct q as [|i q]; [done|]. simpl.
    destruct (decide (i = j)) as [->|Hij].
    + rewrite list_lookup_alter_eq.
      destruct (children root !! j) as [c|]; simpl; [|done].
      apply IH. congruence.
    + by rewrite list_lookup_alter_ne.
Qed.

(** *** The loop over the elements of one section *)

Lemma visit_elem_assign name p st root :
  is_Some (get_id root p) →
  ∃ root1,
    Uniquifier.visit_elem name p (st, root)
    = ((assign_key st (name, get_id root p)).1, root1) ∧
    get_id root1 p = (assign_key st (name, get_id root p)).2 ∧
    ∀ q, q ≠ p → get_id root1 q = get_id root q.
Proof.
  intros Hp. unfold Uniquifier.visit_elem, assign_key. fold (get_id root p).
  destruct (Uniquifier.mapping st !! (name, get_id root p)) as [old|].
  - exists root. done.
  - eexists. split; [done|]. simpl. split.
    + apply get_id_update_same. unfold get_id in Hp.
      destruct (get_elem p root); [done|]. by destruct Hp.
    + intros q Hq. by apply get_id_update_other.
Qed.

Lemma visit_elems_assign name : ∀ ps st root,
  NoDup ps →
  (∀ p, p ∈ ps → is_Some (get_id root p)) →
  ∃ root',
    foldl (λ a p, Uniquifier.visit_elem name p a) (st, root) ps
    = ((assign_keys st ((λ p, (name, get_id root p)) <$> ps)).1, root') ∧
    get_id root' <$> ps
    = (assign_keys st ((λ p, (name, get_id root p)) <$> ps)).2 ∧
    ∀ q, q ∉ ps → get_id root' q = get_id root q.
Proof.
  induction ps as [|p ps IH]; intros st root Hnd Hvalid.
  - exists root. done.
  - apply list.NoDup_cons in Hnd as [Hp Hnd].
    destruct (visit_elem_assign name p st root) as (root1 & Hv & Hsame & Hother).
    { apply Hvalid. left. }
    cbn [foldl fmap list_fmap assign_keys]. rewrite Hv.
    destruct (assign_key st (name, get_id root p)) as [st1 out] eqn:Ha.
    cbn [fst snd] in *.
    destruct (IH st1 root1 Hnd) as (root' & Hf & Hids & Hframe).
    { intros q Hq. rewrite Hother; [apply Hvalid; by right|].
      intros Heq. apply Hp. by rewrite <- Heq. }
    assert ((λ p0, (name, get_id root1 p0)) <$> ps
            = (λ p0, (name, get_id root p0)) <$> ps) as Hkeys.
    { apply list_fmap_ext. intros i q Hq. rewrite Hother; [done|].
      intros Heq. apply Hp. rewrite <- Heq. by eapply list_elem_of_lookup_2. }
    rewrite Hkeys in Hf, Hids.
    exists root'. rewrite Hf.
    destruct (assign_keys st1 _) as [st2 outs]. cbn [fst snd] in *.
    split; [done|]. split.
    + rewrite Hids. f_equal. rewrite Hframe by done. done.
    + intros q Hq. apply not_elem_of_cons in Hq as [Hqp Hq].
      rewrite Hframe by done. by apply Hother.
Qed.

Lemma assign_keys_app st keys1 keys2 :
  assign_keys st (keys1 ++ keys2)
  = ((assign_keys (assign_keys st keys1).1 keys2).1,
     (assign_keys st keys1).2 ++ (assign_keys (assign_keys st keys1).1 keys2).2).
Proof.
  revert st. induction keys1 as [|key keys1 IH]; intros st; simpl.
  - by destruct (assign_keys st keys2).
  - destruct (assign_key st key) as [st1 out]. rewrite IH.
    by destruct (assign_keys st1 keys1).
Qed.

(** *** The loop over the spine *)

Lemma visit_section_assign c st cc item :
  parsed cc item.1 = parsed c item.1 →
  ∃ root',
    Uniquifier.visit_section (st, cc) item
    = ((assign_keys st
          ((λ p, (item.1, get_id (parsed c item.1) p))
             <$> xpath_id (parsed c item.1))).1,
       set_parsed cc item.1 root') ∧
    get_id root' <$> xpath_id (parsed c item.1)
    = (assign_keys st
         ((λ p, (item.1, get_id (parsed c item.1) p))
            <$> xpath_id (parsed c item.1))).2.
Proof.
  intros Heq. unfold Uniquifier.visit_section. cbn zeta. rewrite Heq.
  destruct (visit_elems_assign item.1 (xpath_id (parsed c item.1)) st
              (parsed c item.1)) as (root' & Hf & Hids & _).
  { apply NoDup_xpath_id. }
  { apply xpath_id_valid. }
  rewrite Hf. by exists root'.
Qed.

Lemma visit_sections_assign c : ∀ items st cc,
  NoDup items.*1 →
  (∀ item, item ∈ items → parsed cc item.1 = parsed c item.1) →
  ∃ c',
    foldl Uniquifier.visit_section (st, cc) items
    = ((assign_keys st
          (concat ((λ item : string * bool,
                      (λ p, (item.1, get_id (parsed c item.1) p))
                        <$> xpath_id (parsed c item.1)) <$> items))).1, c') ∧
    concat ((λ item : string * bool,
               get_id (parsed c' item.1) <$> xpath_id (parsed c item.1))
              <$> items)
    = (assign_keys st
         (concat ((λ item : string * bool,
                     (λ p, (item.1, get_id (parsed c item.1) p))
                       <$> xpath_id (parsed c item.1)) <$> items))).2 ∧
    (∀ n, n ∉ items.*1 → parsed c' n = parsed cc n) ∧
    spine_names c' = spine_names cc.
Proof.
  induction items as [|item items IH]; intros st cc Hnd Hsame.
  - exists cc. done.
  - rewrite fmap_cons in Hnd. apply list.NoDup_cons in Hnd as [Hitem Hnd].
    destruct (visit_section_assign c st cc item) as (root' & Hv & Hids).
    { apply Hsame. left. }
    cbn [foldl fmap list_fmap concat]. rewrite Hv, assign_keys_app.
    destruct (assign_keys st _) as [st1 outs1]. cbn [fst snd] in *.
    destruct (IH st1 (set_parsed cc item.1 root') Hnd) as (c' & Hf & Hrest & Hframe & Hsp).
    { intros it Hit. simpl. rewrite fn_lookup_insert_ne; [apply Hsame; by right|].
      intros Heq. apply Hitem. rewrite Heq. by apply (list_elem_of_fmap_2 fst). }
    exists c'. rewrite Hf. split; [done|]. split; [|split].
    + rewrite Hrest. f_equal. rewrite (Hframe _ Hitem). simpl.
      by rewrite fn_lookup_insert.
    + intros n Hn. apply not_elem_of_cons in Hn as [Hne Hn].
      rewrite (Hframe n Hn). simpl. by rewrite fn_lookup_insert_ne.
    + by rewrite Hsp.
Qed.

Lemma assign_ids_flat c :
  NoDup (spine_names c).*1 →
  ∃ c',
    Uniquifier.assign_ids c
    = ((assign_keys (Uniquifier.mkState ∅ 0) (encountered c)).1, c') ∧
    ids_after c c' = (assign_keys (Uniquifier.mkState ∅ 0) (encountered c)).2 ∧
    spine_names c' = spine_names c.
Proof.
  intros Hnd.
  destruct (visit_sections_assign c (spine_names c) (Uniquifier.mkState ∅ 0) c Hnd)
    as (c' & Hf & Hids & _ & Hsp); [done|].
  exists c'. done.
Qed.

(** *** What the loop assigns *)

Lemma assign_key_spec st key :
  Uniquifier.count (assign_key st key).1 = S (Uniquifier.count st) ∧
  (∀ v, Uniquifier.mapping st !! key = Some v →
     Uniquifier.mapping (assign_key st key).1 = Uniquifier.mapping st ∧
     (assign_key st key).2 = key.2) ∧
  (Uniquifier.mapping st !! key = None →
     Uniquifier.mapping (assign_key st key).1
     = <[key := Uniquifier.new_id (S (Uniquifier.count st))]> (Uniquifier.mapping st) ∧
     (assign_key st key).2 = Some (Uniquifier.new_id (S (Uniquifier.count st)))).
Proof.
  unfold assign_key. destruct (Uniquifier.mapping st !! key) as [old|]; simpl;
    split; try done; split; done.
Qed.

Lemma assign_keys_spec keys : ∀ st,
  Uniquifier.count (assign_keys st keys).1
  = (Uniquifier.count st + length keys)%nat ∧
  length (assign_keys st keys).2 = length keys ∧
  (∀ k key, keys !! k = Some key →
     (Uniquifier.mapping st !! key = None → key ∉ take k keys →
        (assign_keys st keys).2 !! k
        = Some (Some (Uniquifier.new_id (Uniquifier.count st + S k))) ∧
        Uniquifier.mapping (assign_keys st keys).1 !! key
        = Some (Uniquifier.new_id (Uniquifier.count st + S k))) ∧
     ((is_Some (Uniquifier.mapping st !! key) ∨ key ∈ take k keys) →
        (assign_keys st keys).2 !! k = Some (key.2))) ∧
  (∀ key v, Uniquifier.mapping st !! key = Some v →
     Uniquifier.mapping (assign_keys st keys).1 !! key = Some v) ∧
  (∀ key v, Uniquifier.mapping (assign_keys st keys).1 !! key = Some v →
     Uniquifier.mapping st !! key = Some v ∨
     (Uniquifier.mapping st !! key = None ∧
      ∃ k, keys !! k = Some key ∧ (key ∉ take k keys) ∧
           v = Uniquifier.new_id (Uniquifier.count st + S k))).
Proof.
  induction keys as [|key0 keys IH]; intros st.
  - simpl. split; [lia|]. split; [done|]. split; [done|]. split; [done|]. by left.
  - cbn [assign_keys].
    destruct (assign_key_spec st key0) as (Hcount & Hold & Hnew).
    destruct (assign_key st key0) as [st1 out0]. cbn [fst snd] in *.
    destruct (IH st1) as (Hc & Hl & Hk & Hkeep & Hback).
    destruct (assign_keys st1 keys) as [st2 outs]. cbn [fst snd length] in *.
    assert (∀ key v, Uniquifier.mapping st !! key = Some v →
              Uniquifier.mapping st1 !! key = Some v) as Hkeep1.
    { intros key v Hv. destruct (Uniquifier.mapping st !! key0) as [old|] eqn:H0.
      - by destruct (Hold old eq_refl) as [-> _].
      - destruct (Hnew eq_refl) as [-> _]. rewrite lookup_insert_ne; [done|].
        intros <-. congruence. }
    assert (is_Some (Uniquifier.mapping st1 !! key0)) as Hkey0.
    { destruct (Uniquifier.mapping st !! key0) as [old|] eqn:H0.
      - destruct (Hold old eq_refl) as [-> _]. by rewrite H0.
      - destruct (Hnew eq_refl) as [-> _]. by rewrite lookup_insert_eq. }
    assert (∀ key, key ≠ key0 → Uniquifier.mapping st !! key = None →
              Uniquifier.mapping st1 !! key = None) as Hnone1.
    { intros key Hne Hn. destruct (Uniquifier.mapping st !! key0) as [old|] eqn:H0.
      - by destruct (Hold old eq_refl) as [-> _].
      - destruct (Hnew eq_refl) as [-> _]. by rewrite lookup_insert_ne. }
    split; [lia|]. split; [lia|]. split; [|split].
    + intros [|k] key Hkey; simpl in Hkey.
      * injection Hkey as <-. split.
        -- intros Hn _. destruct (Hnew Hn) as [Hm ->]. split.
           ++ simpl. do 3 f_equal. lia.
           ++ apply Hkeep. rewrite Hm, lookup_insert_eq. do 2 f_equal. lia.
        -- intros [[v Hv]|Hin]; [|by apply elem_of_nil in Hin].
           destruct (Hold v Hv) as [_ ->]. done.
      * destruct (Hk k key Hkey) as [Hfresh Hseen]. split.
        -- intros Hn Hnot. cbn [take] in Hnot.
           apply not_elem_of_cons in Hnot as [Hne Hnot].
           destruct (Hfresh (Hnone1 key Hne Hn) Hnot) as [Ho Hm].
           rewrite Hcount in Ho, Hm.
           replace (Uniquifier.count st + S (S k))%nat
             with (S (Uniquifier.count st) + S k)%nat by lia.
           done.
        -- intros Hor. simpl. apply Hseen.
           destruct Hor as [[v Hv]|Hin].
           ++ left. exists v. by apply Hkeep1.
           ++ cbn [take] in Hin. apply elem_of_cons in Hin as [->|Hin]; [by left|by right].
    + intros key v Hv. apply Hkeep. by apply Hkeep1.
    + intros key v Hv. destruct (Hback key v Hv) as [H1|(H1 & k & Hkey & Hnot & ->)].
      * destruct (Uniquifier.mapping st !! key0) as [old|] eqn:H0.
        -- destruct (Hold old eq_refl) as [Hm _]. rewrite Hm in H1. by left.
        -- destruct (Hnew eq_refl) as [Hm _]. rewrite Hm in H1.
           destruct (decide (key0 = key)) as [->|Hne].
           ++ rewrite lookup_insert_eq in H1. injection H1 as <-.
              right. split; [done|]. exists 0. split; [done|].
              split; [apply not_elem_of_nil|]. f_equal. lia.
           ++ rewrite lookup_insert_ne in H1 by done. by left.
      * assert (key ≠ key0) as Hne.
        { intros ->. destruct Hkey0 as [? Hs]. congruence. }
        right. split.
        -- destruct (Uniquifier.mapping st !! key) as [w|] eqn:Hw; [|done].
           rewrite (Hkeep1 key w Hw) in H1. done.
        -- exists (S k). split; [done|]. split.
           ++ cbn [take]. by apply not_elem_of_cons.
           ++ f_equal. lia.
Qed.

Lemma new_id_inj k1 k2 : Uniquifier.new_id k1 = Uniquifier.new_id k2 → k1 = k2.
Proof.
  unfold Uniquifier.new_id. intros H. apply (inj (String.append "a")) in H.
  by apply (inj pretty) in H.
Qed.

Lemma NoDup_not_in_take {A} (l : list A) k x :
  NoDup l → l !! k = Some x → x ∉ take k l.
Proof.
  intros Hnd Hk Hin. apply list_elem_of_lookup in Hin as [j Hj].
  pose proof (lookup_lt_Some _ _ _ Hj) as Hlt. rewrite length_take in Hlt.
  rewrite lookup_take_lt in Hj by lia.
  pose proof (NoDup_lookup _ _ _ _ Hnd Hj Hk). lia.
Qed.

Lemma rewrite_links_get_id env mapping c n p :
  replace_links_keeps_ids env →
  get_id (parsed (Uniquifier.rewrite_links env mapping c) n) p
  = get_id (parsed c n) p.
Proof.
  intros Hk. unfold Uniquifier.rewrite_links. generalize (mime_map c).
  intros names. revert c. induction names as [|name names IH]; intros c; [done|].
  cbn [foldl]. rewrite IH. simpl. destruct (decide (name = n)) as [->|Hne].
  - rewrite fn_lookup_insert. apply Hk.
  - by rewrite fn_lookup_insert_ne.
Qed.

(** C1 (amended). When the names of the spine are pairwise different, the
    loop of [make_anchors_unique] counts every element carrying an
    identifier, in spine order and then document order, starting at one.  An
    element whose pair of section and identifier was not met before gets the
    identifier [a] followed by its own number, and the pair is mapped to it;
    an element whose pair was met before keeps its identifier.  All
    identifiers assigned are pairwise different and of the form [a<k>] with
    [k] between 1 and the number [N] of elements; when no pair occurs twice
    they are exactly [a1], ..., [aN] in the order of the traversal.  The
    second loop of the function rewrites links with the mapping built by the
    first, and leaves these identifiers in place if rewriting links does. *)
Theorem assign_ids_unique c :
  NoDup (spine_names c).*1 →
  ∃ st c',
    Uniquifier.assign_ids c = (st, c') ∧
    (∀ env, Uniquifier.make_anchors_unique env c
            = Uniquifier.rewrite_links env (Uniquifier.mapping st) c') ∧
    (∀ env, replace_links_keeps_ids env →
            ids_after c (Uniquifier.make_anchors_unique env c) = ids_after c c') ∧
    Uniquifier.count st = length (encountered c) ∧
    length (ids_after c c') = length (encountered c) ∧
    (∀ k key, encountered c !! k = Some key →
       (key ∉ take k (encountered c) →
          ids_after c c' !! k = Some (Some (Uniquifier.new_id (S k))) ∧
          Uniquifier.mapping st !! key = Some (Uniquifier.new_id (S k))) ∧
       (key ∈ take k (encountered c) → ids_after c c' !! k = Some (key.2))) ∧
    (∀ key v, Uniquifier.mapping st !! key = Some v →
       ∃ k, k < length (encountered c) ∧ encountered c !! k = Some key ∧
            v = Uniquifier.new_id (S k)) ∧
    (∀ key1 key2 v,
       Uniquifier.mapping st !! key1 = Some v →
       Uniquifier.mapping st !! key2 = Some v → key1 = key2) ∧
    (NoDup (encountered c) →
     ids_after c c'
     = (λ k, Some (Uniquifier.new_id k)) <$> seq 1 (length (encountered c))).
Proof.
  intros Hnd. destruct (assign_ids_flat c Hnd) as (c' & Ha & Hids & _).
  destruct (assign_keys_spec (encountered c) (Uniquifier.mkState ∅ 0))
    as (Hc & Hl & Hk & _ & Hback).
  destruct (assign_keys (Uniquifier.mkState ∅ 0) (encountered c)) as [st outs].
  cbn [fst snd Uniquifier.count Uniquifier.mapping] in *.
  exists st, c'. rewrite Hids.
  assert (∀ key v, Uniquifier.mapping st !! key = Some v →
            ∃ k, k < length (encountered c) ∧ encountered c !! k = Some key ∧
                 v = Uniquifier.new_id (S k)) as Hvalues.
  { intros key v Hv. destruct (Hback key v Hv) as [H1|(_ & k & Hkey & _ & ->)].
    - by rewrite lookup_empty in H1.
    - exists k. split; [by eapply lookup_lt_Some|done]. }
  split; [done|]. split.
  { intros env. unfold Uniquifier.make_anchors_unique. by rewrite Ha. }
  split.
  { intros env Hkeep. unfold Uniquifier.make_anchors_unique. rewrite Ha, <- Hids.
    unfold ids_after. f_equal. apply list_fmap_ext. intros _ item _.
    apply list_fmap_ext. intros _ p _. by apply rewrite_links_get_id. }
  split; [done|]. split; [done|]. split; [|split; [done|split]].
  - intros k key Hkey. destruct (Hk k key Hkey) as [Hfresh Hseen]. split.
    + intros Hnot. apply Hfresh; [apply lookup_empty|done].
    + intros Hin. apply Hseen. by right.
  - intros key1 key2 v H1 H2.
    destruct (Hvalues _ _ H1) as (k1 & _ & Hk1 & ->).
    destruct (Hvalues _ _ H2) as (k2 & _ & Hk2 & Heq).
    apply new_id_inj in Heq. injection Heq as ->. congruence.
  - intros Hnodup. apply list_eq. intros i.
    rewrite list_lookup_fmap.
    destruct (encountered c !! i) as [key|] eqn:Hkey.
    + destruct (Hk i key Hkey) as [Hfresh _].
      destruct Hfresh as [-> _]; [apply lookup_empty|by apply NoDup_not_in_take|].
      rewrite lookup_seq_lt by (by eapply lookup_lt_Some). done.
    + apply lookup_ge_None in Hkey.
      rewrite lookup_seq_ge by lia. simpl. apply lookup_ge_None. lia.
Qed.

(** ** Anchor uniquifier: what the renaming leaves alone *)









(** * The statements on sample inputs *)

Lemma sample_spine_NoDup : NoDup (spine_names sample_book).*1.
Proof. apply (bool_decide_unpack _). vm_compute. exact I. Qed.

Example sample_groups :
  (Grouper.create_margin_groups sample_env sample_book).1
  = [[("a.html", PyNone)]; [("b.html", PyDict {[ "top" := Q2Qc 36 ]})]].
Proof. vm_compute. reflexivity. Qed.

Lemma sample_merge_html_keeps_margins : merge_html_keeps_margins sample_env.
Proof. intros c names master name _. reflexivity. Qed.

Lemma top_override_nonempty : ({[ "top" := Q2Qc 36 ]} : gmap string Qc) ≠ ∅.
Proof. intros H. apply (f_equal (lookup "top")) in H. vm_compute in H. discriminate. Qed.

Lemma render_name_effective_layout_witness :
  ∃ h' r' eff,
    effective_layout {[ base_layout_ref := sample_layout ]}
      (PyDict {[ "top" := Q2Qc 36 ]}) base_layout_ref = Ok (h', r') ∧
    h' !! r' = Some eff ∧
    QPageLayout.margins eff
    = QMarginsF.mk (Q2Qc 72) (Q2Qc 36) (Q2Qc 72) (Q2Qc 72).
Proof.
  destruct (render_name_effective_layout {[ base_layout_ref := sample_layout ]}
              base_layout_ref sample_layout) as (Hdict & _).
  { reflexivity. }
  destruct (Hdict {[ "top" := Q2Qc 36 ]} top_override_nonempty)
    as (h' & r' & eff & He & Hl & _ & _ & _ & _ & Hm & _).
  exists h', r', eff. split; [exact He|]. split; [exact Hl|].
  rewrite Hm.
  - apply (bool_decide_unpack _). vm_compute. exact I.
  - apply (bool_decide_unpack _). vm_compute. exact I.
Defined.

(** C8 as stated fails in two ways.  On an A4 page in standard mode with
    margins of one inch, an override of the top margin by -5 is refused and
    the group is rendered with the top margin of one inch.  On a page with
    margins of 36.5 points, an override of the top margin alone leaves the
    group with a left margin of 37 points. *)
Lemma effective_layout_override_dropped :
  (∃ h' r' eff,
     effective_layout {[ base_layout_ref := sample_layout ]}
       (PyDict {[ "top" := Qc_of_Z (-5) ]}) base_layout_ref = Ok (h', r') ∧
     h' !! r' = Some eff ∧
     QPageLayout.margins eff = QPageLayout.margins sample_layout ∧
     QMarginsF.top (QPageLayout.margins eff) ≠ Qc_of_Z (-5)) ∧
  (∃ h' r' eff,
     effective_layout {[ base_layout_ref := fine_layout ]}
       (PyDict {[ "top" := Q2Qc 36 ]}) base_layout_ref = Ok (h', r') ∧
     h' !! r' = Some eff ∧
     QMarginsF.left (QPageLayout.margins fine_layout) = Q2Qc 36.5 ∧
     QMarginsF.left (QPageLayout.margins eff) = Q2Qc 37 ∧
     QMarginsF.left (QPageLayout.margins eff)
     ≠ QMarginsF.left (QPageLayout.margins fine_layout)).
Proof.
  split.
  - eexists _, _, _. split; [vm_compute; reflexivity|].
    split; [vm_compute; reflexivity|].
    split; [apply (bool_decide_unpack _); vm_compute; exact I|].
    intros H. apply (f_equal this) in H. vm_compute in H. discriminate.
  - eexists _, _, _. split; [vm_compute; reflexivity|].
    split; [vm_compute; reflexivity|].
    split; [reflexivity|].
    split; [apply Qc_is_canon; vm_compute; reflexivity|].
    intros H. apply (f_equal this) in H. vm_compute in H. discriminate.
Qed.

Lemma render_name_keeps_base_layout_witness :
  ∃ st',
    convert_groups sample_env sample_world base_layout_ref "marker"
      (initial_loop_state sample_render_state) sample_margin_groups = Ok st' ∧
    layouts (rstate st') !! base_layout_ref = Some sample_layout ∧
    length (calls (rstate st')) = 2.
Proof.
  eassert (convert_groups sample_env sample_world base_layout_ref "marker"
             (initial_loop_state sample_render_state) sample_margin_groups
           = Ok _) as Hrun.
  { vm_compute. reflexivity. }
  eexists. split; [exact Hrun|].
  destruct (render_name_keeps_base_layout {[ base_layout_ref := sample_layout ]}
              base_layout_ref sample_layout) as (_ & Hloop).
  { reflexivity. }
  destruct (Hloop sample_env sample_world "marker" sample_margin_groups
              (initial_loop_state sample_render_state) _ eq_refl Hrun)
    as (Hbase & Hcalls & _).
  split; [exact Hbase|]. rewrite Hcalls. reflexivity.
Defined.

Lemma convert_page_offsets_witness :
  ∃ st',
    convert_groups sample_env sample_world base_layout_ref "marker"
      (initial_loop_state sample_render_state) sample_margin_groups = Ok st' ∧
    num_pages st' = 3%Z ∧
    ∀ a loc, anchor_locations st' !! a = Some loc →
      (1 ≤ AnchorLocation.pagenum loc ≤ num_pages st')%Z.
Proof.
  eassert (convert_groups sample_env sample_world base_layout_ref "marker"
             (initial_loop_state sample_render_state) sample_margin_groups
           = Ok _) as Hrun.
  { vm_compute. reflexivity. }
  eexists. split; [exact Hrun|].
  destruct (convert_page_offsets _ _ _ _ _ _ _ Hrun)
    as (_ & Hnum & _ & _ & _ & Hbound).
  split; [rewrite Hnum; vm_compute; reflexivity|].
  apply Hbound. intros p Hp.
  apply list_elem_of_In in Hp. simpl in Hp.
  destruct Hp as [<-|[<-|[]]];
    (unfold content_before_marker, marker_page; simpl;
     split; [vm_compute; discriminate|];
     apply (bool_decide_unpack _); vm_compute; exact I).
Defined.

Lemma convert_empty_spine_witness :
  ∃ e,
    convert sample_env sample_world empty_book sample_layout None None None
    = Raise e ∧
    is_SystemExit e = false ∧
    e = none_has_no "write".
Proof.
  destruct (convert_empty_spine sample_env sample_world empty_book sample_layout
              None None None eq_refl) as (_ & _ & e & He & Hsys & Hwrite).
  exists e. split; [exact He|]. split; [exact Hsys|].
  apply Hwrite; reflexivity.
Defined.

Lemma three_spine_NoDup : NoDup (spine_names three_book).*1.
Proof. apply (bool_decide_unpack _). vm_compute. exact I. Qed.

Example three_groups :
  (Grouper.create_margin_groups sample_env three_book).1
  = [[("a.html", PyNone)]; [("b.html", PyDict {[ "top" := Q2Qc 36 ]})]] ∧
  Grouper.merges (Grouper.create_margin_groups_state sample_env three_book)
  = [(["a.html"; "c.html"], "a.html")].
Proof. split; vm_compute; reflexivity. Qed.

Lemma create_margin_groups_partition_witness :
  ∃ runs,
    run_partition (sections sample_env three_book) runs ∧
    (Grouper.create_margin_groups sample_env three_book).1 = merged <$> runs ∧
    omap merge_call runs = [(["a.html"; "c.html"], "a.html")].
Proof.
  destruct (create_margin_groups_partition sample_env three_book
              three_spine_NoDup sample_merge_html_keeps_margins)
    as (runs & Hpart & Hgroups & Hmerges & _).
  exists runs. split; [exact Hpart|]. split; [exact Hgroups|].
  rewrite <- Hmerges. vm_compute. reflexivity.
Defined.

Lemma sample_encountered_NoDup : NoDup (encountered sample_book).
Proof. apply (bool_decide_unpack _). vm_compute. exact I. Qed.

Lemma assign_ids_unique_witness :
  ∃ st c',
    Uniquifier.assign_ids sample_book = (st, c') ∧
    Uniquifier.count st = 4 ∧
    ids_after sample_book c' = [Some "a1"; Some "a2"; Some "a3"; Some "a4"].
Proof.
  destruct (assign_ids_unique sample_book sample_spine_NoDup)
    as (st & c' & Ha & _ & _ & Hcount & _ & _ & _ & _ & Hexact).
  exists st, c'. split; [exact Ha|]. split; [rewrite Hcount; reflexivity|].
  rewrite (Hexact sample_encountered_NoDup). vm_compute. reflexivity.
Defined.

(** C1 as stated fails on a section in which two elements carry the same
    identifier: both are counted, only the first gets a new identifier, and
    [a2] is assigned to nothing. *)
Lemma assign_ids_duplicate_identifier :
  length (encountered dup_book) = 2 ∧
  ids_after dup_book (Uniquifier.assign_ids dup_book).2 = [Some "a1"; Some "x"] ∧
  (map_to_list (Uniquifier.mapping (Uniquifier.assign_ids dup_book).1)).*2 = ["a1"] ∧
  ids_after dup_book (Uniquifier.assign_ids dup_book).2
  ≠ (λ k, Some (Uniquifier.new_id k)) <$> seq 1 2.
Proof.
  split; [vm_compute; reflexivity|]. split; [vm_compute; reflexivity|].
  split; [vm_compute; reflexivity|]. vm_compute. discriminate.
Qed.

(** C2 as stated fails when a rendered document has an anchor behind its
    marker: the document keeps one page, and the table records page 3. *)
Lemma convert_anchor_behind_marker :
  ∃ cv,
    convert sample_env late_world late_book sample_layout None None None = Ok cv ∧
    num_pages (final_state cv) = 1%Z ∧
    PDFDoc.page_count <$> pdf_doc (final_state cv) = Some 1%Z ∧
    AnchorLocation.pagenum <$> anchor_locations (final_state cv) !! "x" = Some 3%Z ∧
    ¬ (1 ≤ 3 ≤ 1)%Z.
Proof.
  eexists. split; [vm_compute; reflexivity|].
  split; [vm_compute; reflexivity|]. split; [vm_compute; reflexivity|].
  split; [vm_compute; reflexivity|]. lia.
Qed.

(** The link [#intro] of the section [text/ch1.html]: the heading it points
    to is renamed [a1], the resolver takes the name of the section to
    [text/text/ch1.html], and the link keeps the old identifier. *)
Lemma replacer_own_section_missed_witness :
  Uniquifier.mapping (Uniquifier.assign_ids nested_book).1
    !! ("text/ch1.html", Some "intro") = Some "a1" ∧
  href_to_name nested_env "text/ch1.html" "text/ch1.html"
  = Some "text/text/ch1.html" ∧
  Uniquifier.replacer nested_env
    (Uniquifier.mapping (Uniquifier.assign_ids nested_book).1)
    "text/ch1.html" "#intro"
  = ("#intro", false).
Proof.
  split; [vm_compute; reflexivity|]. split; [vm_compute; reflexivity|].
  apply (replacer_own_section_missed nested_env
           (Uniquifier.mapping (Uniquifier.assign_ids nested_book).1)
           "text/ch1.html" "intro" "text/text/ch1.html" "a1").
  - vm_compute. reflexivity.
  - vm_compute. reflexivity.
  - vm_compute. reflexivity.
  - discriminate.
Defined.


